(** * Couette-Poiseuille flow: the numerical core of [app.py]

    A shallow embedding of the solver functions of [src/app.py]:
    [jacobian_eigenvalues], [analytical_solution],
    [solve_couette_poiseuille], [IVP_Explicit], [IVP_Implicit],
    [shooting_method] and [initial_value].

    Numbers.  The program computes on IEEE doubles.  The functions are
    embedded twice.  The first embedding computes on exact rationals [Q]
    (no rounding, no overflow, no NaN); it carries the statements about
    the assembled system, the structure of the line search and the
    recurrences.  The second, module [B64], embeds the integrators and the
    line search on binary64 floats with the operations of the hardware; it
    carries the statements about sample counts, exceptions and the
    equality of trajectories, which depend on rounding.  Python integers
    are [Z].

    Arrays.  A one-dimensional numpy array is a [list Q], a matrix a list
    of rows.  An array holds its elements in lowest terms: a store
    normalises the value with [Qred], which does not change the number
    ([Qred q == q]) and keeps evaluation feasible.  Indexing is Python's:
    a negative index counts from the end and an index out of range raises
    [IndexError].

    Errors.  A Python exception is a value [Raise e] of the [result]
    type, threaded through with a small error monad.

    numpy.  [np.zeros] and [np.linspace] are modelled by what they return.
    [np.linalg.solve] and [np.linalg.eigvals] are modelled by their
    mathematical contract, as relations. *)

From Stdlib Require Import ZArith QArith Qround Qabs List Lia Lqa Bool Floats.
Import ListNotations.

Open Scope Q_scope.

(** ** Python exceptions and the error monad *)

Inductive exn : Type :=
| ZeroDivisionError
| ValueError
| IndexError
| TypeError
| LinAlgError
| OverflowError.

Inductive result (A : Type) : Type :=
| Ok (a : A)
| Raise (e : exn).

Arguments Ok {A} a.
Arguments Raise {A} e.

Definition bind {A B : Type} (m : result A) (k : A -> result B) : result B :=
  match m with
  | Ok a => k a
  | Raise e => Raise e
  end.

Notation "x <- m ;; k" := (bind m (fun x => k))
  (at level 61, m at next level, right associativity).
Notation "' p <- m ;; k" := (bind m (fun x => let p := x in k))
  (at level 61, p pattern, m at next level, right associativity).

(** ** Arrays with Python indexing *)

Definition vector := list Q.
Definition matrix := list (list Q).

(** [np.zeros(n)]: a negative dimension raises [ValueError]. *)
Definition np_zeros (n : Z) : result vector :=
  if (n <? 0)%Z then Raise ValueError
  else Ok (repeat 0 (Z.to_nat n)).

(** [np.zeros((n, n))]. *)
Definition np_zeros2 (n : Z) : result matrix :=
  if (n <? 0)%Z then Raise ValueError
  else Ok (repeat (repeat 0 (Z.to_nat n)) (Z.to_nat n)).

(** The position an index [i] denotes in an array of [len] elements. *)
Definition norm_index (len : nat) (i : Z) : result nat :=
  if ((0 <=? i) && (i <? Z.of_nat len))%Z then Ok (Z.to_nat i)
  else if ((- Z.of_nat len <=? i) && (i <? 0))%Z
       then Ok (Z.to_nat (i + Z.of_nat len))
       else Raise IndexError.

Fixpoint upd {A : Type} (l : list A) (k : nat) (v : A) : list A :=
  match l, k with
  | [], _ => []
  | _ :: t, O => v :: t
  | x :: t, S k' => x :: upd t k' v
  end.

(** [a[i]] *)
Definition getitem (a : vector) (i : Z) : result Q :=
  k <- norm_index (length a) i ;;
  Ok (nth k a 0).

(** [a[i] = v] *)
Definition setitem (a : vector) (i : Z) (v : Q) : result vector :=
  k <- norm_index (length a) i ;;
  Ok (upd a k (Qred v)).

(** [A[i, j] = v]; numpy checks the row index, then the column index. *)
Definition setitem2 (A : matrix) (i j : Z) (v : Q) : result matrix :=
  r <- norm_index (length A) i ;;
  c <- norm_index (length (nth r A [])) j ;;
  Ok (upd A r (upd (nth r A []) c (Qred v))).

(** ** Loops over [range] *)

(** [range(lo, hi)] as a list. *)
Definition range (lo hi : Z) : list Z :=
  map (fun k => (lo + Z.of_nat k)%Z) (seq 0 (Z.to_nat (hi - lo))).

Fixpoint for_each {S : Type} (l : list Z) (body : Z -> S -> result S) (s : S)
  : result S :=
  match l with
  | [] => Ok s
  | i :: l' => s' <- body i s ;; for_each l' body s'
  end.

(** [for i in range(lo, hi): s = body(i, s)] *)
Definition for_range {S : Type} (lo hi : Z) (body : Z -> S -> result S) (s : S)
  : result S :=
  for_each (range lo hi) body s.

(** ** Python's [round] and [/] *)

(** [round(x)] of one argument: the nearest integer, a tie going to the
    even one. *)
Definition py_round (x : Q) : Z :=
  let f := Qfloor x in
  let r := x - inject_Z f in
  match Qcompare r (1 # 2) with
  | Lt => f
  | Gt => (f + 1)%Z
  | Eq => if Z.even f then f else (f + 1)%Z
  end.

(** [x / y] on floats: a zero divisor raises [ZeroDivisionError]. *)
Definition py_div (x y : Q) : result Q :=
  if Qeq_bool y 0 then Raise ZeroDivisionError else Ok (x / y).

Definition Qlt_bool (x y : Q) : bool := negb (Qle_bool y x).

(** ** numpy's linear algebra, by contract *)

Definition dot (r v : vector) : Q :=
  fold_right Qplus 0 (map (fun ax => fst ax * snd ax) (combine r v)).

Definition mat_vec (A : matrix) (v : vector) : vector :=
  map (fun r => dot r v) A.

Definition vec_eq : vector -> vector -> Prop := Forall2 Qeq.

(** A square matrix is non-singular when its kernel is trivial. *)
Definition nonsingular (A : matrix) : Prop :=
  forall v : vector,
    length v = length A ->
    vec_eq (mat_vec A v) (repeat 0 (length A)) ->
    vec_eq v (repeat 0 (length A)).

(** [np.linalg.solve(A, b)]: the solution of [A u = b] when [A] is
    non-singular, [LinAlgError] when it is singular. *)
Inductive linalg_solve (A : matrix) (b : vector) : result vector -> Prop :=
| solve_ok (u : vector) :
    nonsingular A ->
    length u = length b ->
    vec_eq (mat_vec A u) b ->
    linalg_solve A b (Ok u)
| solve_singular :
    ~ nonsingular A ->
    linalg_solve A b (Raise LinAlgError).

Fixpoint remove_nth {A : Type} (k : nat) (l : list A) : list A :=
  match l, k with
  | [], _ => []
  | _ :: t, O => t
  | x :: t, S k' => x :: remove_nth k' t
  end.

(** Determinant by expansion along the first row; [n] is the size. *)
Fixpoint det_n (n : nat) (A : matrix) : Q :=
  match n, A with
  | S n', row :: rest =>
      fold_right Qplus 0
        (map (fun j => (-1) ^ Z.of_nat j * nth j row 0
                       * det_n n' (map (remove_nth j) rest))
             (seq 0 (length row)))
  | _, _ => 1
  end.

Definition det (A : matrix) : Q := det_n (length A) A.

(** [A - x I] *)
Definition shift_diag (A : matrix) (x : Q) : matrix :=
  map (fun ir => upd (snd ir) (fst ir) (nth (fst ir) (snd ir) 0 - x))
      (combine (seq 0 (length A)) A).

(** [np.linalg.eigvals(A)]: the roots of the characteristic polynomial,
    each as often as its multiplicity. *)
Definition linalg_eigvals (A : matrix) (ev : vector) : Prop :=
  length ev = length A /\
  forall x : Q,
    det (shift_diag A x) == fold_right Qmult 1 (map (fun l => l - x) ev).

(** ** [jacobian_eigenvalues] *)

Definition jacobian_eigenvalues (eigenvalues : vector) : Prop :=
  let A := [[0; 1]; [0; 0]] in
  linalg_eigvals A eigenvalues.

(** ** [analytical_solution] *)

Definition analytical_solution (y P : Q) : Q :=
  y + (P / 2) * y * (1 - y).

(** The same on an array of sample points, elementwise. *)
Definition analytical_solution_array (y : vector) (P : Q) : vector :=
  map (fun yi => Qred (analytical_solution yi P)) y.

(** ** [solve_couette_poiseuille] *)

(** [np.linspace(start, stop, num)]: [num] samples, the last one set to
    [stop]. *)
Definition np_linspace (start stop : Q) (num : Z) : result vector :=
  if (num <? 0)%Z then Raise ValueError
  else
    let step := (stop - start) / inject_Z (num - 1) in
    let y := map (fun k => Qred (inject_Z k * step + start)) (range 0 num) in
    if (1 <? num)%Z then Ok (upd y (Z.to_nat (num - 1)) (Qred stop)) else Ok y.

(** Lines 39-51: the grid, the matrix and the right-hand side. *)
Definition assemble (P : Q) (N : Z) : result (vector * matrix * vector) :=
  dy <- py_div 1 (inject_Z (N - 1)) ;;
  y <- np_linspace 0 1 N ;;
  A <- np_zeros2 N ;;
  b <- np_zeros N ;;
  Ab <- for_range 1 (N - 1) (fun i Ab =>
          A <- setitem2 (fst Ab) i (i - 1) 1 ;;
          A <- setitem2 A i i (-2) ;;
          A <- setitem2 A i (i + 1) 1 ;;
          b <- setitem (snd Ab) i (- P * dy ^ 2) ;;
          Ok (A, b)) (A, b) ;;
  A <- setitem2 (fst Ab) 0 0 1 ;;
  b <- setitem (snd Ab) 0 0 ;;
  A <- setitem2 A (-1) (-1) 1 ;;
  b <- setitem b (-1) 1 ;;
  Ok (y, A, b).

(** Lines 52-53: the solve and the return. *)
Inductive solve_couette_poiseuille (P : Q) (N : Z)
  : result (vector * vector) -> Prop :=
| scp_assemble_raises (e : exn) :
    assemble P N = Raise e ->
    solve_couette_poiseuille P N (Raise e)
| scp_returns (y : vector) (A : matrix) (b u : vector) :
    assemble P N = Ok (y, A, b) ->
    linalg_solve A b (Ok u) ->
    solve_couette_poiseuille P N (Ok (y, u))
| scp_solve_raises (y : vector) (A : matrix) (b : vector) (e : exn) :
    assemble P N = Ok (y, A, b) ->
    linalg_solve A b (Raise e) ->
    solve_couette_poiseuille P N (Raise e).

(** ** [shooting_method] and [initial_value] *)

Definition shooting_method (u2_initial_guess : Z) (p : Q) : result Q :=
  let h := 1 # 100 in
  q <- py_div 1 h ;;
  let iteration := py_round q in
  let u0 := [0; inject_Z u2_initial_guess] in
  u1 <- np_zeros iteration ;;
  u2 <- np_zeros iteration ;;
  x <- getitem u0 0 ;;
  u1 <- setitem u1 0 x ;;
  x <- getitem u0 1 ;;
  u2 <- setitem u2 0 x ;;
  u <- for_range 0 (iteration - 1) (fun i u =>
         a <- getitem (fst u) i ;;
         c <- getitem (snd u) i ;;
         u1 <- setitem (fst u) (i + 1) (a + c * h) ;;
         c <- getitem (snd u) i ;;
         u2 <- setitem (snd u) (i + 1) (c + (- p) * h) ;;
         Ok (u1, u2)) (u1, u2) ;;
  getitem (fst u) (-1).

(** The value of [closest_diff]: [float('inf')] or a finite number. *)
Inductive xdiff : Type :=
| Inf
| Fin (d : Q).

(** [diff < closest_diff] *)
Definition diff_lt (diff : Q) (closest_diff : xdiff) : bool :=
  match closest_diff with
  | Inf => true
  | Fin c => Qlt_bool diff c
  end.

(** The result is [closest_u2]: [None] or an integer. *)
Definition initial_value (p : Q) : result (option Z) :=
  let closest_u2 := None in
  let closest_diff := Inf in
  best <- for_range 0 100 (fun u2_initial_guess best =>
            final_u1 <- shooting_method u2_initial_guess p ;;
            let diff := Qabs (final_u1 - 1) in
            if diff_lt diff (snd best)
            then Ok (Some u2_initial_guess, Fin diff)
            else Ok best) (closest_u2, closest_diff) ;;
  Ok (fst best).

(** ** [IVP_Explicit] and [IVP_Implicit] *)

(** Storing a Python object in a float array: [None] raises [TypeError]. *)
Definition to_float (x : option Z) : result Q :=
  match x with
  | Some g => Ok (inject_Z g)
  | None => Raise TypeError
  end.

Definition IVP_Explicit (p h : Q) : result (vector * vector) :=
  q <- py_div 1 h ;;
  let iteration := (py_round q + 1)%Z in
  u1 <- np_zeros iteration ;;
  u2 <- np_zeros iteration ;;
  u1 <- setitem u1 0 0 ;;
  g <- initial_value p ;;
  g <- to_float g ;;
  u2 <- setitem u2 0 g ;;
  for_range 0 (iteration - 1) (fun i u =>
    a <- getitem (fst u) i ;;
    c <- getitem (snd u) i ;;
    u1 <- setitem (fst u) (i + 1) (a + c * h) ;;
    c <- getitem (snd u) i ;;
    u2 <- setitem (snd u) (i + 1) (c + (- p) * h) ;;
    Ok (u1, u2)) (u1, u2).

Definition IVP_Implicit (p h : Q) : result (vector * vector) :=
  q <- py_div 1 h ;;
  let iteration := (py_round q + 1)%Z in
  u1 <- np_zeros iteration ;;
  u2 <- np_zeros iteration ;;
  u1 <- setitem u1 0 0 ;;
  g <- initial_value p ;;
  g <- to_float g ;;
  u2 <- setitem u2 0 g ;;
  for_range 0 (iteration - 1) (fun i u =>
    c <- getitem (snd u) i ;;
    u2 <- setitem (snd u) (i + 1) (c + (- p) * h) ;;
    a <- getitem (fst u) i ;;
    c <- getitem u2 (i + 1) ;;
    u1 <- setitem (fst u) (i + 1) (a + c * h) ;;
    Ok (u1, u2)) (u1, u2).

(** ** The integrators and the line search on binary64

    The same four functions once more, on the program's own numbers:
    [float] is IEEE binary64, its operations round to nearest, ties to
    even, as Python's and numpy's do.  Nothing is normalised at a store.
    [np.zeros] is modelled without its allocation failure for a length
    the machine cannot hold. *)

Module B64.

#[local] Set Warnings "-inexact-float".

Definition vector := list float.

(** [np.zeros(n)] *)
Definition np_zeros (n : Z) : result vector :=
  if (n <? 0)%Z then Raise ValueError
  else Ok (repeat 0%float (Z.to_nat n)).

(** [a[i]] *)
Definition getitem (a : vector) (i : Z) : result float :=
  k <- norm_index (length a) i ;;
  Ok (nth k a 0%float).

(** [a[i] = v] *)
Definition setitem (a : vector) (i : Z) (v : float) : result vector :=
  k <- norm_index (length a) i ;;
  Ok (upd a k v).

(** The integer nearest to [m * 2^e], a tie going to the even one. *)
Definition round_half_even (m e : Z) : Z :=
  if (0 <=? e)%Z then (m * 2 ^ e)%Z
  else
    let d := (2 ^ (- e))%Z in
    let q := (m / d)%Z in
    match (2 * (m mod d) ?= d)%Z with
    | Lt => q
    | Gt => (q + 1)%Z
    | Eq => if Z.even q then q else (q + 1)%Z
    end.

(** [round(x)] of a float: [ValueError] for NaN, [OverflowError] for an
    infinity, else the nearest integer, ties to even. *)
Definition py_round (x : float) : result Z :=
  match Prim2SF x with
  | S754_nan => Raise ValueError
  | S754_infinity _ => Raise OverflowError
  | S754_zero _ => Ok 0%Z
  | S754_finite s m e =>
      let r := round_half_even (Zpos m) e in
      Ok (if s then (- r)%Z else r)
  end.

(** [x / y] on floats: a divisor [0.0] or [-0.0] raises
    [ZeroDivisionError]. *)
Definition py_div (x y : float) : result float :=
  if (y =? 0)%float then Raise ZeroDivisionError else Ok (x / y)%float.

(** A Python integer stored in a float array: the nearest float,
    [OverflowError] when that is an infinity. *)
Definition of_int (z : Z) : result float :=
  let f := SF2Prim (binary_normalize prec emax z 0 false) in
  if is_infinity f then Raise OverflowError else Ok f.

(** [None] stored in a float array becomes NaN. *)
Definition to_float (x : option Z) : result float :=
  match x with
  | Some g => of_int g
  | None => Ok nan
  end.

Definition shooting_method (u2_initial_guess : Z) (p : float) : result float :=
  let h := 0.01%float in
  q <- py_div 1 h ;;
  iteration <- py_round q ;;
  u1 <- np_zeros iteration ;;
  u2 <- np_zeros iteration ;;
  u1 <- setitem u1 0 0 ;;
  x <- of_int u2_initial_guess ;;
  u2 <- setitem u2 0 x ;;
  u <- for_range 0 (iteration - 1) (fun i u =>
         a <- getitem (fst u) i ;;
         c <- getitem (snd u) i ;;
         u1 <- setitem (fst u) (i + 1) (a + c * h)%float ;;
         c <- getitem (snd u) i ;;
         u2 <- setitem (snd u) (i + 1) (c + (- p) * h)%float ;;
         Ok (u1, u2)) (u1, u2) ;;
  getitem (fst u) (-1).

Definition initial_value (p : float) : result (option Z) :=
  let closest_u2 := None in
  let closest_diff := infinity in
  best <- for_range 0 100 (fun u2_initial_guess best =>
            final_u1 <- shooting_method u2_initial_guess p ;;
            let diff := abs (final_u1 - 1) in
            if (diff <? snd best)%float
            then Ok (Some u2_initial_guess, diff)
            else Ok best) (closest_u2, closest_diff) ;;
  Ok (fst best).

Definition IVP_Explicit (p h : float) : result (vector * vector) :=
  q <- py_div 1 h ;;
  r <- py_round q ;;
  let iteration := (r + 1)%Z in
  u1 <- np_zeros iteration ;;
  u2 <- np_zeros iteration ;;
  u1 <- setitem u1 0 0 ;;
  g <- initial_value p ;;
  g <- to_float g ;;
  u2 <- setitem u2 0 g ;;
  for_range 0 (iteration - 1) (fun i u =>
    a <- getitem (fst u) i ;;
    c <- getitem (snd u) i ;;
    u1 <- setitem (fst u) (i + 1) (a + c * h)%float ;;
    c <- getitem (snd u) i ;;
    u2 <- setitem (snd u) (i + 1) (c + (- p) * h)%float ;;
    Ok (u1, u2)) (u1, u2).

Definition IVP_Implicit (p h : float) : result (vector * vector) :=
  q <- py_div 1 h ;;
  r <- py_round q ;;
  let iteration := (r + 1)%Z in
  u1 <- np_zeros iteration ;;
  u2 <- np_zeros iteration ;;
  u1 <- setitem u1 0 0 ;;
  g <- initial_value p ;;
  g <- to_float g ;;
  u2 <- setitem u2 0 g ;;
  for_range 0 (iteration - 1) (fun i u =>
    c <- getitem (snd u) i ;;
    u2 <- setitem (snd u) (i + 1) (c + (- p) * h)%float ;;
    a <- getitem (fst u) i ;;
    c <- getitem u2 (i + 1) ;;
    u1 <- setitem (fst u) (i + 1) (a + c * h)%float ;;
    Ok (u1, u2)) (u1, u2).

(** One step of the explicit scheme read off the finished arrays. *)
Definition explicit_step (p h : float) (u1 u2 : vector) (j : nat) : Prop :=
  nth (S j) u1 0%float = (nth j u1 0 + nth j u2 0 * h)%float /\
  nth (S j) u2 0%float = (nth j u2 0 + (- p) * h)%float.

(** One step of the implicit-flavoured scheme. *)
Definition implicit_step (p h : float) (u1 u2 : vector) (j : nat) : Prop :=
  nth (S j) u2 0%float = (nth j u2 0 + (- p) * h)%float /\
  nth (S j) u1 0%float = (nth j u1 0 + nth (S j) u2 0 * h)%float.

(** A loop that started from the arrays [a1], [a2] and has done the
    steps below [i]. *)
Definition euler_inv (M : nat) (a1 a2 : vector)
           (step : vector -> vector -> nat -> Prop)
           (i : Z) (t : vector * vector) : Prop :=
  length (fst t) = M /\ length (snd t) = M /\
  nth 0 (fst t) 0%float = nth 0 a1 0%float /\
  nth 0 (snd t) 0%float = nth 0 a2 0%float /\
  forall j, (Z.of_nat j < i)%Z -> step (fst t) (snd t) j.

(** A trajectory of [M] samples that starts at [(0, g)] and advances by
    [step]. *)
Definition trajectory (step : vector -> vector -> nat -> Prop) (M : nat)
           (g : float) (u1 u2 : vector) : Prop :=
  length u1 = M /\ length u2 = M /\
  nth 0 u1 0%float = 0%float /\ nth 0 u2 0%float = g /\
  forall j, (S j < M)%nat -> step u1 u2 j.

End B64.

(** A float has the sign [s] and is not NaN. *)
Definition sf_signed (s : bool) (x : spec_float) : Prop :=
  match x with
  | S754_nan => False
  | S754_zero s' | S754_infinity s' | S754_finite s' _ _ => s' = s
  end.

(** ** Vocabulary of the statements *)

(** One step of the explicit scheme read off the finished arrays: both
    updates use the state of step [j]. *)
Definition explicit_step (p h : Q) (u1 u2 : vector) (j : nat) : Prop :=
  nth (S j) u1 0 = Qred (nth j u1 0 + nth j u2 0 * h) /\
  nth (S j) u2 0 = Qred (nth j u2 0 + - p * h).

(** One step of the implicit-flavoured scheme: [u2] first, then [u1] from
    the new [u2]. *)
Definition implicit_step (p h : Q) (u1 u2 : vector) (j : nat) : Prop :=
  nth (S j) u2 0 = Qred (nth j u2 0 + - p * h) /\
  nth (S j) u1 0 = Qred (nth j u1 0 + nth (S j) u2 0 * h).

(** What a loop leaves of the arrays it started from: their length and
    their first elements; every later element comes from a step. *)
Definition marched (step : vector -> vector -> nat -> Prop) (M : nat)
           (a1 a2 u1 u2 : vector) : Prop :=
  length u1 = M /\ length u2 = M /\
  nth 0 u1 0 = nth 0 a1 0 /\ nth 0 u2 0 = nth 0 a2 0 /\
  forall j, (S j < M)%nat -> step u1 u2 j.

(** The invariant of either Euler loop before iteration [i], for arrays
    that started as [a1] and [a2]: they keep their length [M] and their
    first elements, and the steps below [i] are done. *)
Definition euler_inv (M : nat) (a1 a2 : vector)
           (step : vector -> vector -> nat -> Prop)
           (i : Z) (t : vector * vector) : Prop :=
  length (fst t) = M /\ length (snd t) = M /\
  nth 0 (fst t) 0 = nth 0 a1 0 /\ nth 0 (snd t) 0 = nth 0 a2 0 /\
  forall j, (Z.of_nat j < i)%Z -> step (fst t) (snd t) j.

(** A trajectory of [M] samples that starts at [(0, g)] and advances by
    [step]. *)
Definition trajectory (step : vector -> vector -> nat -> Prop) (M : nat)
           (g : Q) (u1 u2 : vector) : Prop :=
  length u1 = M /\ length u2 = M /\
  nth 0 u1 0 = 0 /\ nth 0 u2 0 = Qred g /\
  forall j, (S j < M)%nat -> step u1 u2 j.

(** The number of samples for a step size [h > 0]. *)
Definition samples (h : Q) : nat := Z.to_nat (py_round (1 / h) + 1).

(** The terminal value of the reference run for a candidate. *)
Definition terminal_u (p : Q) (g : Z) : Q :=
  match shooting_method g p with
  | Ok v => v
  | Raise _ => 0
  end.

(** [g] is the first candidate of least error among [0 .. n-1]. *)
Definition first_least (err : Z -> Q) (n : Z) (g : Z) : Prop :=
  (0 <= g < n)%Z /\
  (forall k, (0 <= k < n)%Z -> err g <= err k) /\
  (forall k, (0 <= k < g)%Z -> err g < err k).

(** Row [r] of the discretised equation: the second-difference stencil. *)
Definition stencil_row (n r : nat) : vector :=
  upd (upd (upd (repeat 0 n) (r - 1) 1) r (-2)) (r + 1) 1.

(** Row [r] of the system: an identity row at either end, the stencil in
    between. *)
Definition system_row (n r : nat) : vector :=
  if (r =? 0)%nat then upd (repeat 0 n) 0 1
  else if (r =? n - 1)%nat then upd (repeat 0 n) (n - 1) 1
       else stencil_row n r.

(** Entry [r] of the right-hand side. *)
Definition system_rhs (P : Q) (N : Z) (r : nat) : Q :=
  if (r =? 0)%nat then 0
  else if (r =? Z.to_nat N - 1)%nat then 1
       else Qred (- P * (1 / inject_Z (N - 1)) ^ 2).

(** * Properties *)

Ltac split5 := split; [| split; [| split; [| split]]].

(** ** The error monad and Python indexing *)

Lemma bind_Ok {A B : Type} (a : A) (k : A -> result B) :
  bind (Ok a) k = k a.
Proof. reflexivity. Qed.

Lemma norm_index_nonneg (len : nat) (i : Z) :
  (0 <= i < Z.of_nat len)%Z -> norm_index len i = Ok (Z.to_nat i).
Proof.
  intros [H0 H1]. unfold norm_index.
  apply Z.leb_le in H0. apply Z.ltb_lt in H1.
  rewrite H0, H1. reflexivity.
Qed.

Lemma norm_index_last (len : nat) :
  (0 < len)%nat -> norm_index len (-1) = Ok (len - 1)%nat.
Proof.
  intros H. unfold norm_index.
  replace (0 <=? -1)%Z with false by reflexivity. simpl andb.
  replace (-1 <? 0)%Z with true by reflexivity.
  assert (E : (- Z.of_nat len <=? -1)%Z = true) by (apply Z.leb_le; lia).
  rewrite E. simpl andb. cbv iota. f_equal. lia.
Qed.

Lemma length_upd {A : Type} (l : list A) (k : nat) (v : A) :
  length (upd l k v) = length l.
Proof.
  revert k; induction l as [|x t IH]; intros [|k]; simpl; auto.
Qed.

Lemma nth_upd_eq {A : Type} (l : list A) (k : nat) (v d : A) :
  (k < length l)%nat -> nth k (upd l k v) d = v.
Proof.
  revert k; induction l as [|x t IH]; intros [|k] H; simpl in *; try lia; auto.
  apply IH; lia.
Qed.

Lemma nth_upd_neq {A : Type} (l : list A) (k j : nat) (v d : A) :
  j <> k -> nth j (upd l k v) d = nth j l d.
Proof.
  revert k j; induction l as [|x t IH]; intros [|k] [|j] H; simpl; auto; try lia.
Qed.

Lemma nth_repeat_0 (n k : nat) : nth k (repeat 0 n) 0 = 0.
Proof.
  revert k; induction n as [|n IH]; intros [|k]; simpl; auto.
Qed.

Lemma getitem_nonneg (a : vector) (i : Z) :
  (0 <= i < Z.of_nat (length a))%Z -> getitem a i = Ok (nth (Z.to_nat i) a 0).
Proof.
  intros H. unfold getitem. rewrite norm_index_nonneg by exact H. reflexivity.
Qed.

Lemma setitem_nonneg (a : vector) (i : Z) (v : Q) :
  (0 <= i < Z.of_nat (length a))%Z ->
  setitem a i v = Ok (upd a (Z.to_nat i) (Qred v)).
Proof.
  intros H. unfold setitem. rewrite norm_index_nonneg by exact H. reflexivity.
Qed.

Lemma setitem_last (a : vector) (v : Q) :
  (0 < length a)%nat ->
  setitem a (-1) v = Ok (upd a (length a - 1) (Qred v)).
Proof.
  intros H. unfold setitem. rewrite norm_index_last by exact H. reflexivity.
Qed.

Lemma np_zeros_nonneg (n : Z) :
  (0 <= n)%Z -> np_zeros n = Ok (repeat 0 (Z.to_nat n)).
Proof.
  intros H. unfold np_zeros.
  destruct (n <? 0)%Z eqn:E; [apply Z.ltb_lt in E; lia | reflexivity].
Qed.

Lemma np_zeros_neg (n : Z) : (n < 0)%Z -> np_zeros n = Raise ValueError.
Proof.
  intros H. unfold np_zeros. apply Z.ltb_lt in H. rewrite H. reflexivity.
Qed.

(** ** Loops *)

Lemma range_cons (lo hi : Z) :
  (lo < hi)%Z -> range lo hi = lo :: range (lo + 1) hi.
Proof.
  intros H. unfold range.
  replace (Z.to_nat (hi - lo)) with (S (Z.to_nat (hi - (lo + 1)))) by lia.
  rewrite <- cons_seq, <- seq_shift. cbn [map]. rewrite map_map.
  f_equal; [lia |].
  apply map_ext. intros k. lia.
Qed.

Lemma range_nil (lo hi : Z) : (hi <= lo)%Z -> range lo hi = [].
Proof.
  intros H. unfold range.
  replace (Z.to_nat (hi - lo)) with O by lia. reflexivity.
Qed.

Lemma length_range (lo hi : Z) : length (range lo hi) = Z.to_nat (hi - lo).
Proof. unfold range. rewrite length_map, length_seq. reflexivity. Qed.

Lemma nth_range (lo hi : Z) (k : nat) (d : Z) :
  (k < Z.to_nat (hi - lo))%nat -> nth k (range lo hi) d = (lo + Z.of_nat k)%Z.
Proof.
  intros H. unfold range.
  rewrite (nth_indep _ d (lo + Z.of_nat 0)%Z)
    by (rewrite length_map, length_seq; exact H).
  rewrite (map_nth (fun k => (lo + Z.of_nat k)%Z) _ O).
  rewrite seq_nth by exact H. reflexivity.
Qed.

(** The invariant rule of a [for] loop over a range: the loop runs to
    its end and the invariant holds there. *)
Lemma for_range_inv {S : Type} (I : Z -> S -> Prop)
      (body : Z -> S -> result S) (lo hi : Z) (s : S) :
  (lo <= hi)%Z ->
  I lo s ->
  (forall i t, (lo <= i < hi)%Z -> I i t ->
               exists t', body i t = Ok t' /\ I (i + 1)%Z t') ->
  exists s', for_range lo hi body s = Ok s' /\ I hi s'.
Proof.
  unfold for_range. intros Hle.
  remember (Z.to_nat (hi - lo)) as n eqn:En.
  revert lo s Hle En.
  induction n as [|n IH]; intros lo s Hle En H0 Hstep.
  - rewrite range_nil by lia. exists s. split; [reflexivity |].
    replace hi with lo by lia. exact H0.
  - rewrite range_cons by lia. simpl for_each.
    destruct (Hstep lo s) as [t [Hb Ht]]; [lia | exact H0 |].
    rewrite Hb, bind_Ok.
    apply IH; [lia | lia | exact Ht |].
    intros i t' Hi. apply Hstep. lia.
Qed.

(** ** The two Euler loops *)

Section EulerLoops.

Variables (p h : Q) (M : nat) (a1 a2 : vector).
Hypothesis HM : (1 <= M)%nat.
Hypothesis L1 : length a1 = M.
Hypothesis L2 : length a2 = M.

Lemma euler_inv_start (step : vector -> vector -> nat -> Prop) :
  euler_inv M a1 a2 step 0 (a1, a2).
Proof.
  unfold euler_inv; cbn [fst snd]. split5; auto. intros j Hj; lia.
Qed.

Lemma euler_inv_end (step : vector -> vector -> nat -> Prop)
      (u1 u2 : vector) :
  euler_inv M a1 a2 step (Z.of_nat M - 1) (u1, u2) -> marched step M a1 a2 u1 u2.
Proof.
  intros (K1 & K2 & K3 & K4 & K5). cbn [fst snd] in *.
  split5; auto. intros j Hj. apply K5. lia.
Qed.

(** Element [S j] of the arrays after the stores of iteration [i]: the
    new value when [j = i], the old one when [j < i]. *)
Ltac after_stores K5 j i old :=
  destruct (Z.eq_dec (Z.of_nat j) i) as [E|E];
  [ subst i; replace (Z.to_nat (Z.of_nat j + 1)) with (S j) by lia;
    rewrite Nat2Z.id; rewrite !nth_upd_eq by lia;
    rewrite !nth_upd_neq by lia; reflexivity
  | destruct (K5 j ltac:(lia)) as [S1 S2];
    rewrite !nth_upd_neq by lia; old S1 S2 ].

Lemma explicit_loop :
  exists u1 u2,
    for_range 0 (Z.of_nat M - 1) (fun i u =>
      a <- getitem (fst u) i ;;
      c <- getitem (snd u) i ;;
      u1 <- setitem (fst u) (i + 1) (a + c * h) ;;
      c <- getitem (snd u) i ;;
      u2 <- setitem (snd u) (i + 1) (c + (- p) * h) ;;
      Ok (u1, u2)) (a1, a2) = Ok (u1, u2) /\
    marched (explicit_step p h) M a1 a2 u1 u2.
Proof.
  match goal with |- exists u1 u2, for_range _ _ ?body _ = _ /\ _ =>
    destruct (for_range_inv (euler_inv M a1 a2 (explicit_step p h)) body
                0 (Z.of_nat M - 1) (a1, a2))
      as [[u1 u2] [Hrun HI]]
  end.
  - lia.
  - apply euler_inv_start.
  - intros i [t1 t2] Hi (K1 & K2 & K3 & K4 & K5). cbn [fst snd] in *.
    rewrite !getitem_nonneg by lia. cbn [bind].
    rewrite setitem_nonneg by lia. cbn [bind].
    rewrite setitem_nonneg by lia. cbn [bind].
    eexists; split; [reflexivity |].
    unfold euler_inv; cbn [fst snd]. rewrite !length_upd.
    split5; auto.
    + rewrite nth_upd_neq by lia. exact K3.
    + rewrite nth_upd_neq by lia. exact K4.
    + intros j Hj. split.
      * after_stores K5 j i ltac:(fun S1 S2 => exact S1).
      * after_stores K5 j i ltac:(fun S1 S2 => exact S2).
  - exists u1, u2. split; [exact Hrun | apply euler_inv_end, HI].
Qed.

Lemma implicit_loop :
  exists u1 u2,
    for_range 0 (Z.of_nat M - 1) (fun i u =>
      c <- getitem (snd u) i ;;
      u2 <- setitem (snd u) (i + 1) (c + (- p) * h) ;;
      a <- getitem (fst u) i ;;
      c <- getitem u2 (i + 1) ;;
      u1 <- setitem (fst u) (i + 1) (a + c * h) ;;
      Ok (u1, u2)) (a1, a2) = Ok (u1, u2) /\
    marched (implicit_step p h) M a1 a2 u1 u2.
Proof.
  match goal with |- exists u1 u2, for_range _ _ ?body _ = _ /\ _ =>
    destruct (for_range_inv (euler_inv M a1 a2 (implicit_step p h)) body
                0 (Z.of_nat M - 1) (a1, a2))
      as [[u1 u2] [Hrun HI]]
  end.
  - lia.
  - apply euler_inv_start.
  - intros i [t1 t2] Hi (K1 & K2 & K3 & K4 & K5). cbn [fst snd] in *.
    rewrite getitem_nonneg by lia. cbn [bind].
    rewrite setitem_nonneg by lia. cbn [bind].
    rewrite getitem_nonneg by lia. cbn [bind].
    rewrite getitem_nonneg by (rewrite length_upd; lia). cbn [bind].
    rewrite setitem_nonneg by lia. cbn [bind].
    eexists; split; [reflexivity |].
    unfold euler_inv; cbn [fst snd]. rewrite !length_upd.
    split5; auto.
    + rewrite nth_upd_neq by lia. exact K3.
    + rewrite nth_upd_neq by lia. exact K4.
    + intros j Hj. split.
      * after_stores K5 j i ltac:(fun S1 S2 => exact S1).
      * after_stores K5 j i ltac:(fun S1 S2 => exact S2).
  - exists u1, u2. split; [exact Hrun | apply euler_inv_end, HI].
Qed.

End EulerLoops.

(** ** [shooting_method]: one reference integration *)

Lemma marched_trajectory (step : vector -> vector -> nat -> Prop) (M : nat)
      (g : Q) (u1 u2 : vector) :
  (1 <= M)%nat ->
  marched step M (upd (repeat 0 M) 0 (Qred 0)) (upd (repeat 0 M) 0 (Qred g))
          u1 u2 ->
  trajectory step M g u1 u2.
Proof.
  intros HM (K1 & K2 & K3 & K4 & K5).
  rewrite nth_upd_eq in K3, K4 by (rewrite repeat_length; lia).
  split5; auto.
Qed.

Lemma shooting_method_spec (g : Z) (p : Q) :
  exists u1 u2,
    shooting_method g p = Ok (nth 99 u1 0) /\
    trajectory (explicit_step p (1 # 100)) 100 (inject_Z g) u1 u2.
Proof.
  unfold shooting_method. cbv zeta.
  change (py_div 1 (1 # 100)) with (Ok (100 # 1)). cbn [bind].
  change (py_round (100 # 1)) with 100%Z.
  rewrite np_zeros_nonneg by lia. cbn [bind].
  change (getitem [0; inject_Z g] 0) with (Ok 0).
  change (getitem [0; inject_Z g] 1) with (Ok (inject_Z g)).
  cbn [bind].
  rewrite !setitem_nonneg by (rewrite repeat_length; lia). cbn [bind].
  change (Z.to_nat 100) with 100%nat. change (Z.to_nat 0) with 0%nat.
  change (100 - 1)%Z with (Z.of_nat 100 - 1)%Z.
  destruct (explicit_loop p (1 # 100) 100
              (upd (repeat 0 100) 0 (Qred 0))
              (upd (repeat 0 100) 0 (Qred (inject_Z g))))
    as (u1 & u2 & Hrun & Hm).
  - lia.
  - rewrite length_upd, repeat_length. reflexivity.
  - rewrite length_upd, repeat_length. reflexivity.
  - exists u1, u2. rewrite Hrun. cbn [bind fst].
    apply marched_trajectory in Hm; [| lia].
    split; [| exact Hm].
    destruct Hm as (K1 & _).
    unfold getitem. rewrite norm_index_last by lia. cbn [bind].
    rewrite K1. reflexivity.
Qed.

(** ** [initial_value]: the line search *)

Lemma Qlt_bool_iff (x y : Q) : Qlt_bool x y = true <-> x < y.
Proof.
  unfold Qlt_bool. rewrite negb_true_iff.
  split; intros H.
  - apply Qnot_le_lt. intros L. apply Qle_bool_iff in L. congruence.
  - destruct (Qle_bool y x) eqn:E; [| reflexivity].
    apply Qle_bool_iff in E. apply Qle_not_lt in E. contradiction.
Qed.

Lemma Qlt_bool_false (x y : Q) : Qlt_bool x y = false -> y <= x.
Proof.
  unfold Qlt_bool. rewrite negb_false_iff. apply Qle_bool_iff.
Qed.

Lemma search_loop (run : Z -> result Q) (val : Z -> Q) (n : Z) :
  (0 < n)%Z ->
  (forall k, run k = Ok (val k)) ->
  exists g,
    for_range 0 n (fun u2_initial_guess best =>
      final_u1 <- run u2_initial_guess ;;
      let diff := Qabs (final_u1 - 1) in
      if diff_lt diff (snd best)
      then Ok (Some u2_initial_guess, Fin diff)
      else Ok best) (None, Inf)
    = Ok (Some g, Fin (Qabs (val g - 1))) /\
    first_least (fun k => Qabs (val k - 1)) n g.
Proof.
  intros Hn Hrun.
  pose (err := fun k => Qabs (val k - 1)).
  pose (I := fun (i : Z) (best : option Z * xdiff) =>
    (i = 0%Z /\ best = (None, Inf)) \/
    (exists g, best = (Some g, Fin (err g)) /\ first_least err i g)).
  match goal with |- exists g, for_range _ _ ?body _ = _ /\ _ =>
    destruct (for_range_inv I body 0 n (None, Inf)) as [best [Hfor HI]]
  end.
  - lia.
  - left. split; reflexivity.
  - intros i best Hi HIi. rewrite Hrun. cbn [bind]. cbv zeta.
    fold (err i).
    destruct HIi as [[E0 Eb] | [g [Eb (Hg & Hle & Hlt)]]]; subst best.
    + subst i. cbn [snd diff_lt]. eexists; split; [reflexivity |].
      right. exists 0%Z. split; [reflexivity |].
      split; [lia |]. split.
      * intros k Hk. replace k with 0%Z by lia. apply Qle_refl.
      * intros k Hk. lia.
    + cbn [snd diff_lt]. destruct (Qlt_bool (err i) (err g)) eqn:E.
      * apply Qlt_bool_iff in E.
        eexists; split; [reflexivity |].
        right. exists i. split; [reflexivity |].
        split; [lia |]. split.
        -- intros k Hk. destruct (Z.eq_dec k i) as [->|Hne].
           ++ apply Qle_refl.
           ++ apply Qlt_le_weak. eapply Qlt_le_trans; [exact E |].
              apply Hle. lia.
        -- intros k Hk. eapply Qlt_le_trans; [exact E |]. apply Hle. lia.
      * apply Qlt_bool_false in E.
        eexists; split; [reflexivity |].
        right. exists g. split; [reflexivity |].
        split; [lia |]. split.
        -- intros k Hk. destruct (Z.eq_dec k i) as [->|Hne].
           ++ exact E.
           ++ apply Hle. lia.
        -- exact Hlt.
  - destruct HI as [[E0 _] | [g [Eb Hg]]]; [lia |].
    exists g. rewrite Hfor, Eb. split; [reflexivity | exact Hg].
Qed.

Lemma shooting_method_terminal (p : Q) (g : Z) :
  shooting_method g p = Ok (terminal_u p g).
Proof.
  unfold terminal_u.
  destruct (shooting_method_spec g p) as (u1 & u2 & E & _).
  rewrite E. reflexivity.
Qed.

Lemma initial_value_spec (p : Q) :
  exists g,
    initial_value p = Ok (Some g) /\
    first_least (fun k => Qabs (terminal_u p k - 1)) 100 g.
Proof.
  destruct (search_loop (fun k => shooting_method k p) (terminal_u p) 100)
    as [g [Hrun Hg]].
  - lia.
  - intros k. apply shooting_method_terminal.
  - exists g. unfold initial_value. cbv zeta in Hrun |- *. rewrite Hrun. cbn [bind fst]. split; [reflexivity | exact Hg].
Qed.

(** ** [round] *)

Lemma Qfloor_bounds (x : Q) :
  inject_Z (Qfloor x) <= x /\ x < inject_Z (Qfloor x) + 1.
Proof.
  split; [apply Qfloor_le |].
  pose proof (Qlt_floor x) as H. rewrite inject_Z_plus in H. exact H.
Qed.

Lemma inject_Z_lt_1 (z : Z) : inject_Z z < 1 -> (z <= 0)%Z.
Proof.
  intros H. change 1 with (inject_Z 1) in H. rewrite <- Zlt_Qlt in H. lia.
Qed.

Lemma inject_Z_gt_m1 (z : Z) : -1 < inject_Z z -> (0 <= z)%Z.
Proof.
  intros H. change (-1) with (inject_Z (-1)) in H. rewrite <- Zlt_Qlt in H. lia.
Qed.

(** [round] is within one half of its argument. *)
Lemma py_round_near (x : Q) :
  inject_Z (py_round x) - (1 # 2) <= x /\ x <= inject_Z (py_round x) + (1 # 2).
Proof.
  unfold py_round. cbv zeta.
  destruct (Qfloor_bounds x) as [L U].
  destruct (Qcompare_spec (x - inject_Z (Qfloor x)) (1 # 2)) as [E|E|E].
  - destruct (Z.even (Qfloor x)).
    + split; lra.
    + rewrite inject_Z_plus. change (inject_Z 1) with 1. split; lra.
  - split; lra.
  - rewrite inject_Z_plus. change (inject_Z 1) with 1. split; lra.
Qed.

Lemma py_round_nonneg (x : Q) : 0 <= x -> (0 <= py_round x)%Z.
Proof.
  intros H. destruct (py_round_near x) as [_ U].
  apply inject_Z_gt_m1. lra.
Qed.

(** ** The sample count [round(1/h) + 1] *)

Lemma recip_pos (h : Q) : 0 < h -> 0 < 1 / h.
Proof.
  intros H. unfold Qdiv. rewrite Qmult_1_l. apply Qinv_lt_0_compat. exact H.
Qed.

Lemma py_div_nonzero (x y : Q) : ~ y == 0 -> py_div x y = Ok (x / y).
Proof.
  intros H. unfold py_div.
  destruct (Qeq_bool y 0) eqn:E; [| reflexivity].
  apply Qeq_bool_iff in E. contradiction.
Qed.

Lemma py_div_zero (x y : Q) : y == 0 -> py_div x y = Raise ZeroDivisionError.
Proof.
  intros H. unfold py_div. apply Qeq_bool_iff in H. rewrite H. reflexivity.
Qed.

(** ** [IVP_Explicit] and [IVP_Implicit]: when they return, when they raise *)

Lemma IVP_Explicit_runs (p h : Q) (M : nat) :
  ~ h == 0 -> (py_round (1 / h) + 1)%Z = Z.of_nat M -> (1 <= M)%nat ->
  exists g u1 u2,
    initial_value p = Ok (Some g) /\
    IVP_Explicit p h = Ok (u1, u2) /\
    trajectory (explicit_step p h) M (inject_Z g) u1 u2.
Proof.
  intros Hh HM H1.
  destruct (initial_value_spec p) as [g [Hg _]].
  destruct (explicit_loop p h M (upd (repeat 0 M) 0 (Qred 0))
              (upd (repeat 0 M) 0 (Qred (inject_Z g))))
    as (u1 & u2 & Hrun & Hm);
    [exact H1 | now rewrite length_upd, repeat_length
              | now rewrite length_upd, repeat_length |].
  exists g, u1, u2. split; [exact Hg |]. split.
  - unfold IVP_Explicit. rewrite py_div_nonzero by exact Hh.
    cbn [bind]. cbv zeta. rewrite HM.
    rewrite np_zeros_nonneg by lia. cbn [bind]. rewrite Nat2Z.id.
    rewrite setitem_nonneg by (rewrite repeat_length; lia). cbn [bind].
    rewrite Hg. cbn [bind to_float].
    rewrite setitem_nonneg by (rewrite repeat_length; lia). cbn [bind].
    exact Hrun.
  - apply marched_trajectory; assumption.
Qed.

Lemma IVP_Implicit_runs (p h : Q) (M : nat) :
  ~ h == 0 -> (py_round (1 / h) + 1)%Z = Z.of_nat M -> (1 <= M)%nat ->
  exists g u1 u2,
    initial_value p = Ok (Some g) /\
    IVP_Implicit p h = Ok (u1, u2) /\
    trajectory (implicit_step p h) M (inject_Z g) u1 u2.
Proof.
  intros Hh HM H1.
  destruct (initial_value_spec p) as [g [Hg _]].
  destruct (implicit_loop p h M (upd (repeat 0 M) 0 (Qred 0))
              (upd (repeat 0 M) 0 (Qred (inject_Z g))))
    as (u1 & u2 & Hrun & Hm);
    [exact H1 | now rewrite length_upd, repeat_length
              | now rewrite length_upd, repeat_length |].
  exists g, u1, u2. split; [exact Hg |]. split.
  - unfold IVP_Implicit. rewrite py_div_nonzero by exact Hh.
    cbn [bind]. cbv zeta. rewrite HM.
    rewrite np_zeros_nonneg by lia. cbn [bind]. rewrite Nat2Z.id.
    rewrite setitem_nonneg by (rewrite repeat_length; lia). cbn [bind].
    rewrite Hg. cbn [bind to_float].
    rewrite setitem_nonneg by (rewrite repeat_length; lia). cbn [bind].
    exact Hrun.
  - apply marched_trajectory; assumption.
Qed.

Lemma samples_pos (h : Q) :
  0 < h -> (py_round (1 / h) + 1)%Z = Z.of_nat (samples h) /\ (1 <= samples h)%nat.
Proof.
  intros H. unfold samples.
  pose proof (py_round_nonneg (1 / h)
                (Qlt_le_weak _ _ (recip_pos h H))) as K.
  split; lia.
Qed.

(** Two trajectories of the same length whose second components start
    alike and follow the same recurrence have the same second component. *)
Lemma same_u2 (p h g : Q) (M : nat) (u1 u2 v1 v2 : vector) :
  trajectory (explicit_step p h) M g u1 u2 ->
  trajectory (implicit_step p h) M g v1 v2 ->
  u2 = v2.
Proof.
  intros (K1 & K2 & K3 & K4 & K5) (J1 & J2 & J3 & J4 & J5).
  apply (nth_ext _ _ 0 0); [congruence |].
  intros n Hn. rewrite K2 in Hn.
  induction n as [|n IH].
  - congruence.
  - destruct (K5 n Hn) as [_ E]. destruct (J5 n Hn) as [F _].
    rewrite E, F, IH by lia. reflexivity.
Qed.

(** ** The assembled system *)

Lemma setitem2_nonneg (A : matrix) (i j : Z) (v : Q) :
  (0 <= i < Z.of_nat (length A))%Z ->
  (0 <= j < Z.of_nat (length (nth (Z.to_nat i) A [])))%Z ->
  setitem2 A i j v
  = Ok (upd A (Z.to_nat i) (upd (nth (Z.to_nat i) A []) (Z.to_nat j) (Qred v))).
Proof.
  intros Hi Hj. unfold setitem2.
  rewrite norm_index_nonneg by exact Hi. cbn [bind].
  rewrite norm_index_nonneg by exact Hj. reflexivity.
Qed.

Lemma setitem2_last (A : matrix) (v : Q) :
  (0 < length A)%nat ->
  (0 < length (nth (length A - 1) A []))%nat ->
  setitem2 A (-1) (-1) v
  = Ok (upd A (length A - 1)
            (upd (nth (length A - 1) A [])
                 (length (nth (length A - 1) A []) - 1) (Qred v))).
Proof.
  intros Hi Hj. unfold setitem2.
  rewrite norm_index_last by exact Hi. cbn [bind].
  rewrite norm_index_last by exact Hj. reflexivity.
Qed.

Lemma length_stencil_row (n r : nat) : length (stencil_row n r) = n.
Proof. unfold stencil_row. rewrite !length_upd. apply repeat_length. Qed.

Lemma nth_repeat_row (n r : nat) :
  (r < n)%nat -> nth r (repeat (repeat 0 n) n) [] = repeat 0 n.
Proof.
  intros H. apply nth_repeat_lt. exact H.
Qed.

(** The interior loop of the assembly. *)
Lemma stencil_loop (P dy : Q) (n : nat) :
  (2 <= n)%nat ->
  exists A b,
    for_range 1 (Z.of_nat n - 1) (fun i Ab =>
      A <- setitem2 (fst Ab) i (i - 1) 1 ;;
      A <- setitem2 A i i (-2) ;;
      A <- setitem2 A i (i + 1) 1 ;;
      b <- setitem (snd Ab) i (- P * dy ^ 2) ;;
      Ok (A, b)) (repeat (repeat 0 n) n, repeat 0 n) = Ok (A, b) /\
    length A = n /\ length b = n /\
    forall r, (r < n)%nat ->
      nth r A [] = (if (1 <=? r)%nat && (r <? n - 1)%nat
                    then stencil_row n r else repeat 0 n) /\
      nth r b 0 = (if (1 <=? r)%nat && (r <? n - 1)%nat
                   then Qred (- P * dy ^ 2) else 0).
Proof.
  intros Hn.
  pose (I := fun (i : Z) (Ab : matrix * vector) =>
    length (fst Ab) = n /\ length (snd Ab) = n /\
    forall r, (r < n)%nat ->
      nth r (fst Ab) [] = (if (1 <=? r)%nat && (Z.of_nat r <? i)%Z
                           then stencil_row n r else repeat 0 n) /\
      nth r (snd Ab) 0 = (if (1 <=? r)%nat && (Z.of_nat r <? i)%Z
                          then Qred (- P * dy ^ 2) else 0)).
  match goal with |- exists A b, for_range _ _ ?body _ = _ /\ _ =>
    destruct (for_range_inv I body 1 (Z.of_nat n - 1)
                (repeat (repeat 0 n) n, repeat 0 n))
      as [[A b] [Hrun HI]]
  end.
  - lia.
  - unfold I; cbn [fst snd]. rewrite !repeat_length.
    split; [reflexivity |]. split; [reflexivity |].
    intros r Hr. rewrite nth_repeat_row by exact Hr. rewrite nth_repeat_0.
    destruct (Nat.leb_spec 1 r); destruct (Z.ltb_spec (Z.of_nat r) 1);
      cbn [andb]; try lia; split; reflexivity.
  - intros i [A b] Hi (K1 & K2 & K3). cbn [fst snd] in *.
    pose (k := Z.to_nat i).
    destruct (K3 k ltac:(lia)) as [Rk Bk].
    assert (Fk : (1 <=? k)%nat && (Z.of_nat k <? i)%Z = false).
    { destruct (Z.ltb_spec (Z.of_nat k) i); [lia |]. apply andb_false_r. }
    rewrite Fk in Rk, Bk. fold k.
    rewrite setitem2_nonneg
      by (fold k; rewrite ?Rk, ?repeat_length; lia).
    cbn [bind]. fold k. rewrite Rk.
    rewrite setitem2_nonneg
      by (fold k; rewrite ?length_upd, ?K1; try lia;
          rewrite nth_upd_eq by lia; rewrite length_upd, repeat_length; lia).
    cbn [bind]. fold k. rewrite nth_upd_eq by lia.
    rewrite setitem2_nonneg
      by (fold k; rewrite ?length_upd, ?K1; try lia;
          rewrite nth_upd_eq by (rewrite length_upd; lia);
          rewrite !length_upd, repeat_length; lia).
    cbn [bind]. fold k. rewrite nth_upd_eq by (rewrite length_upd; lia).
    rewrite setitem_nonneg by lia. cbn [bind]. fold k.
    eexists; split; [reflexivity |].
    unfold I; cbn [fst snd]. rewrite !length_upd.
    split; [exact K1 |]. split; [exact K2 |].
    intros r Hr.
    destruct (Nat.eq_dec r k) as [->|Hne].
    + rewrite !nth_upd_eq by (rewrite ?length_upd; lia).
      assert (T : (1 <=? k)%nat && (Z.of_nat k <? i + 1)%Z = true).
      { apply andb_true_iff. split; [apply Nat.leb_le | apply Z.ltb_lt]; lia. }
      rewrite T. split; [| reflexivity].
      unfold stencil_row.
      replace (Z.to_nat (i - 1)) with (k - 1)%nat by lia.
      replace (Z.to_nat (i + 1)) with (k + 1)%nat by lia.
      reflexivity.
    + rewrite !nth_upd_neq by exact Hne.
      destruct (K3 r Hr) as [Rr Br]. rewrite Rr, Br.
      assert (T : (Z.of_nat r <? i + 1)%Z = (Z.of_nat r <? i)%Z).
      { destruct (Z.ltb_spec (Z.of_nat r) (i + 1));
          destruct (Z.ltb_spec (Z.of_nat r) i); try reflexivity; lia. }
      rewrite T. split; reflexivity.
  - exists A, b. split; [exact Hrun |].
    destruct HI as (K1 & K2 & K3). cbn [fst snd] in *.
    split; [exact K1 |]. split; [exact K2 |].
    intros r Hr. destruct (K3 r Hr) as [Rr Br]. rewrite Rr, Br.
    assert (T : (Z.of_nat r <? Z.of_nat n - 1)%Z = (r <? n - 1)%nat).
    { destruct (Z.ltb_spec (Z.of_nat r) (Z.of_nat n - 1));
        destruct (Nat.ltb_spec r (n - 1)); try reflexivity; lia. }
    rewrite T. split; reflexivity.
Qed.

Lemma Qred_zero (x : Q) : x == 0 -> Qred x = 0.
Proof. intros H. apply (Qred_complete x 0) in H. exact H. Qed.

Lemma inject_Z_nonzero (z : Z) : z <> 0%Z -> ~ inject_Z z == 0.
Proof.
  intros H E. apply H. unfold Qeq, inject_Z in E. simpl in E. lia.
Qed.

(** The grid [np.linspace(0, 1, N)] for [N >= 2]. *)
Lemma linspace_spec (N : Z) :
  (2 <= N)%Z ->
  exists y,
    np_linspace 0 1 N = Ok y /\
    length y = Z.to_nat N /\
    nth 0 y 0 = 0 /\
    nth (Z.to_nat N - 1) y 0 = 1 /\
    forall k, (k < Z.to_nat N)%nat ->
      nth k y 0 == inject_Z (Z.of_nat k) / inject_Z (N - 1).
Proof.
  intros HN. unfold np_linspace.
  destruct (Z.ltb_spec N 0) as [?|_]; [lia |].
  destruct (Z.ltb_spec 1 N) as [_|?]; [| lia].
  cbv zeta. eexists; split; [reflexivity |].
  pose proof (inject_Z_nonzero (N - 1) ltac:(lia)) as Hd.
  set (f := fun k : Z => Qred (inject_Z k * ((1 - 0) / inject_Z (N - 1)) + 0)).
  assert (L : length (map f (range 0 N)) = Z.to_nat N).
  { rewrite length_map, length_range. f_equal. lia. }
  assert (Nth : forall k, (k < Z.to_nat N)%nat ->
                 nth k (map f (range 0 N)) 0 = f (Z.of_nat k)).
  { intros k Hk.
    rewrite (nth_indep _ 0 (f 0%Z)) by (rewrite L; exact Hk).
    rewrite map_nth. rewrite nth_range by lia. f_equal. }
  rewrite length_upd. split; [exact L |]. split; [| split].
  - rewrite nth_upd_neq by lia. rewrite Nth by lia.
    unfold f. apply Qred_zero. change (inject_Z (Z.of_nat 0)) with 0. field.
    exact Hd.
  - replace (Z.to_nat N - 1)%nat with (Z.to_nat (N - 1)) by lia.
    rewrite nth_upd_eq by lia. reflexivity.
  - intros k Hk.
    destruct (Nat.eq_dec k (Z.to_nat (N - 1))) as [->|Hne].
    + rewrite nth_upd_eq by lia. rewrite Z2Nat.id by lia.
      change (Qred 1) with 1. field. exact Hd.
    + rewrite nth_upd_neq by exact Hne. rewrite Nth by exact Hk.
      unfold f. rewrite Qred_correct. field. exact Hd.
Qed.

Lemma np_zeros2_nonneg (n : Z) :
  (0 <= n)%Z ->
  np_zeros2 n = Ok (repeat (repeat 0 (Z.to_nat n)) (Z.to_nat n)).
Proof.
  intros H. unfold np_zeros2.
  destruct (Z.ltb_spec n 0); [lia | reflexivity].
Qed.

(** What [assemble] builds for [N >= 2]. *)
Lemma assemble_spec (P : Q) (N : Z) :
  (2 <= N)%Z ->
  exists y A b,
    assemble P N = Ok (y, A, b) /\
    np_linspace 0 1 N = Ok y /\
    length A = Z.to_nat N /\ length b = Z.to_nat N /\
    forall r, (r < Z.to_nat N)%nat ->
      nth r A [] = system_row (Z.to_nat N) r /\
      nth r b 0 = system_rhs P N r.
Proof.
  intros HN. set (n := Z.to_nat N).
  destruct (linspace_spec N HN) as (y & Hy & _).
  destruct (stencil_loop P (1 / inject_Z (N - 1)) n ltac:(lia))
    as (A & b & Hrun & LA & Lb & Hrows).
  destruct (Hrows 0%nat ltac:(lia)) as [R0 _].
  destruct (Hrows (n - 1)%nat ltac:(lia)) as [Rn _].
  assert (T0 : (1 <=? 0)%nat && (0 <? n - 1)%nat = false) by reflexivity.
  assert (Tn : (1 <=? n - 1)%nat && (n - 1 <? n - 1)%nat = false).
  { rewrite Nat.ltb_irrefl. apply andb_false_r. }
  rewrite T0 in R0. rewrite Tn in Rn.
  eexists y, _, _. split; [| split; [exact Hy |]].
  - unfold assemble.
    rewrite py_div_nonzero by (apply inject_Z_nonzero; lia). cbn [bind].
    rewrite Hy. cbn [bind].
    rewrite np_zeros2_nonneg, np_zeros_nonneg by lia. cbn [bind]. fold n.
    replace (Z.of_nat n - 1)%Z with (N - 1)%Z in Hrun by lia.
    match goal with |- bind ?m _ = _ =>
      replace m with (Ok (A, b)) by (symmetry; exact Hrun) end. cbn [bind fst snd].
    rewrite setitem2_nonneg
      by (change (Z.to_nat 0) with 0%nat; rewrite ?R0, ?repeat_length; lia).
    cbn [bind]. change (Z.to_nat 0) with 0%nat. rewrite R0.
    rewrite setitem_nonneg by lia. cbn [bind]. change (Z.to_nat 0) with 0%nat.
    rewrite setitem2_last
      by (rewrite ?length_upd, ?LA; try lia;
          rewrite nth_upd_neq by lia; rewrite Rn, repeat_length; lia).
    cbn [bind]. rewrite !length_upd, LA.
    rewrite nth_upd_neq by lia. rewrite Rn, repeat_length.
    rewrite setitem_last by (rewrite length_upd; lia). cbn [bind].
    rewrite length_upd, Lb. reflexivity.
  - rewrite !length_upd. split; [exact LA |]. split; [exact Lb |].
    intros r Hr. unfold system_row, system_rhs. fold n.
    destruct (Hrows r Hr) as [Rr Br].
    destruct (Nat.eqb_spec r 0) as [->|H0].
    + split; (rewrite nth_upd_neq by lia); (rewrite nth_upd_eq by lia);
        reflexivity.
    + destruct (Nat.eqb_spec r (n - 1)) as [->|H1].
      * split; (rewrite nth_upd_eq by (rewrite length_upd; lia)); reflexivity.
      * assert (T : (1 <=? r)%nat && (r <? n - 1)%nat = true).
        { apply andb_true_iff. split; [apply Nat.leb_le | apply Nat.ltb_lt]; lia. }
        rewrite T in Rr, Br.
        split; (rewrite !nth_upd_neq by lia); assumption.
Qed.

(** ** Dot products with the rows of the system *)

Lemma dot_cons (a x : Q) (r v : vector) :
  dot (a :: r) (x :: v) = a * x + dot r v.
Proof. reflexivity. Qed.

Lemma dot_zeros (n : nat) (v : vector) : dot (repeat 0 n) v == 0.
Proof.
  revert v; induction n as [|n IH]; intros [|x v]; try reflexivity.
  cbn [repeat]. rewrite dot_cons, IH. ring.
Qed.

Lemma dot_upd (r v : vector) (k : nat) (c : Q) :
  (k < length r)%nat -> length r = length v ->
  dot (upd r k c) v == dot r v + (c - nth k r 0) * nth k v 0.
Proof.
  revert v k; induction r as [|a r IH]; intros [|x v] [|k] Hk HL;
    simpl in Hk, HL; try lia; try discriminate HL.
  - cbn [upd nth]. rewrite !dot_cons. ring.
  - cbn [upd nth]. rewrite !dot_cons, IH by lia. ring.
Qed.

Lemma dot_unit_row (n k : nat) (v : vector) :
  (k < n)%nat -> length v = n ->
  dot (upd (repeat 0 n) k 1) v == nth k v 0.
Proof.
  intros Hk Lv.
  rewrite dot_upd by (rewrite repeat_length; lia).
  rewrite dot_zeros, nth_repeat_0. ring.
Qed.

Lemma dot_stencil_row (n r : nat) (v : vector) :
  (1 <= r)%nat -> (r + 1 < n)%nat -> length v = n ->
  dot (stencil_row n r) v
  == nth (r - 1) v 0 - 2 * nth r v 0 + nth (r + 1) v 0.
Proof.
  intros H1 H2 Lv. unfold stencil_row.
  rewrite dot_upd by (rewrite !length_upd, repeat_length; lia).
  rewrite dot_upd by (rewrite !length_upd, repeat_length; lia).
  rewrite dot_upd by (rewrite repeat_length; lia).
  rewrite !nth_upd_neq by lia. rewrite dot_zeros, !nth_repeat_0. ring.
Qed.

Lemma vec_eq_nth (a b : vector) :
  vec_eq a b <->
  length a = length b /\
  forall i, (i < length a)%nat -> nth i a 0 == nth i b 0.
Proof.
  unfold vec_eq. split.
  - induction 1 as [|x y a b Hxy Hab [IHl IHn]].
    + split; [reflexivity |]. intros i Hi. simpl in Hi. lia.
    + split; [simpl; congruence |].
      intros [|i] Hi; simpl in *; [exact Hxy | apply IHn; lia].
  - revert b; induction a as [|x a IH]; intros [|y b] [HL Hn];
      try discriminate HL; constructor.
    + apply (Hn O). simpl. lia.
    + apply IH. split; [simpl in HL; lia |].
      intros i Hi. apply (Hn (S i)). simpl. lia.
Qed.

Lemma nth_mat_vec (A : matrix) (v : vector) (r : nat) :
  nth r (mat_vec A v) 0 = dot (nth r A []) v.
Proof. exact (map_nth (fun row => dot row v) A [] r). Qed.

Lemma length_mat_vec (A : matrix) (v : vector) :
  length (mat_vec A v) = length A.
Proof. apply length_map. Qed.

(** The product of the system matrix with a vector, row by row. *)
Lemma system_times (n : nat) (A : matrix) (v : vector) :
  (2 <= n)%nat -> length A = n -> length v = n ->
  (forall r, (r < n)%nat -> nth r A [] = system_row n r) ->
  nth 0 (mat_vec A v) 0 == nth 0 v 0 /\
  nth (n - 1) (mat_vec A v) 0 == nth (n - 1) v 0 /\
  forall r, (1 <= r)%nat -> (r + 1 < n)%nat ->
    nth r (mat_vec A v) 0
    == nth (r - 1) v 0 - 2 * nth r v 0 + nth (r + 1) v 0.
Proof.
  intros Hn LA Lv Hrows. split; [| split].
  - rewrite nth_mat_vec, Hrows by lia. unfold system_row. cbn [Nat.eqb].
    apply dot_unit_row; lia.
  - rewrite nth_mat_vec, Hrows by lia. unfold system_row.
    destruct (Nat.eqb_spec (n - 1) 0); [lia |].
    rewrite Nat.eqb_refl. apply dot_unit_row; lia.
  - intros r H1 H2. rewrite nth_mat_vec, Hrows by lia. unfold system_row.
    destruct (Nat.eqb_spec r 0); [lia |].
    destruct (Nat.eqb_spec r (n - 1)); [lia |].
    apply dot_stencil_row; lia.
Qed.

(** A vector the stencil annihilates, and that vanishes at index 0, is
    linear in the index. *)
Lemma stencil_kernel_linear (n : nat) (v : vector) :
  nth 0 v 0 == 0 ->
  (forall r, (1 <= r)%nat -> (r + 1 < n)%nat ->
     nth (r - 1) v 0 - 2 * nth r v 0 + nth (r + 1) v 0 == 0) ->
  forall k, (k < n)%nat ->
    nth k v 0 == inject_Z (Z.of_nat k) * nth 1 v 0 /\
    ((k + 1 < n)%nat ->
     nth (k + 1) v 0 == inject_Z (Z.of_nat (k + 1)) * nth 1 v 0).
Proof.
  intros V0 Vi. induction k as [|k IH]; intros Hk.
  - split.
    + rewrite V0. cbn. ring.
    + intros _. cbn [Nat.add]. change (inject_Z (Z.of_nat 1)) with 1. ring.
  - destruct (IH ltac:(lia)) as [Ek Ek1].
    replace (k + 1)%nat with (S k) in Ek1 by lia.
    specialize (Ek1 ltac:(lia)).
    split; [exact Ek1 |].
    intros Hk2. specialize (Vi (S k) ltac:(lia) ltac:(lia)).
    replace (S k - 1)%nat with k in Vi by lia.
    rewrite Ek, Ek1 in Vi.
    rewrite !Nat2Z.inj_add, !Nat2Z.inj_succ. unfold Z.succ.
    rewrite !inject_Z_plus. change (inject_Z (Z.of_nat 1)) with 1.
    rewrite Nat2Z.inj_succ in Vi. unfold Z.succ in Vi.
    rewrite inject_Z_plus in Vi. change (inject_Z 1) with 1 in *.
    change (inject_Z (Z.of_nat 0)) with 0. lra.
Qed.

Lemma system_nonsingular (n : nat) (A : matrix) :
  (2 <= n)%nat -> length A = n ->
  (forall r, (r < n)%nat -> nth r A [] = system_row n r) ->
  nonsingular A.
Proof.
  intros Hn LA Hrows v Lv Hz. rewrite LA in *.
  apply vec_eq_nth in Hz. destruct Hz as [_ Hz].
  rewrite length_mat_vec, LA in Hz.
  destruct (system_times n A v Hn LA Lv Hrows) as (T0 & Tn & Ti).
  assert (V0 : nth 0 v 0 == 0).
  { rewrite <- T0, Hz by lia. rewrite nth_repeat_0. reflexivity. }
  assert (Vn : nth (n - 1) v 0 == 0).
  { rewrite <- Tn, Hz by lia. rewrite nth_repeat_0. reflexivity. }
  assert (Vi : forall r, (1 <= r)%nat -> (r + 1 < n)%nat ->
             nth (r - 1) v 0 - 2 * nth r v 0 + nth (r + 1) v 0 == 0).
  { intros r H1 H2. rewrite <- Ti, Hz by lia. rewrite nth_repeat_0.
    reflexivity. }
  pose proof (stencil_kernel_linear n v V0 Vi) as Lin.
  assert (V1 : nth 1 v 0 == 0).
  { destruct (Lin (n - 1)%nat ltac:(lia)) as [E _].
    rewrite Vn in E. symmetry in E. apply Qmult_integral in E.
    destruct E as [E|E]; [| exact E].
    exfalso. revert E. apply inject_Z_nonzero. lia. }
  apply vec_eq_nth. rewrite repeat_length. split; [exact Lv |].
  intros i Hi. rewrite Lv in Hi.
  destruct (Lin i Hi) as [E _]. rewrite E, V1, nth_repeat_0. ring.
Qed.

(** ** The analytical profile solves the assembled system *)

Lemma analytical_solution_ext (y y' P : Q) :
  y == y' -> analytical_solution y P == analytical_solution y' P.
Proof. intros E. unfold analytical_solution. rewrite E. reflexivity. Qed.

Lemma nth_analytical_array (y : vector) (P : Q) (k : nat) :
  (k < length y)%nat ->
  nth k (analytical_solution_array y P) 0
  == analytical_solution (nth k y 0) P.
Proof.
  intros Hk. unfold analytical_solution_array.
  rewrite (nth_indep _ 0 (Qred (analytical_solution 0 P)))
    by (rewrite length_map; exact Hk).
  rewrite (map_nth (fun yi => Qred (analytical_solution yi P)) y 0 k).
  apply Qred_correct.
Qed.

Lemma analytical_on_grid (P : Q) (N : Z) (y : vector) (k : nat) :
  (2 <= N)%Z -> np_linspace 0 1 N = Ok y -> (k < Z.to_nat N)%nat ->
  nth k (analytical_solution_array y P) 0
  == analytical_solution (inject_Z (Z.of_nat k) / inject_Z (N - 1)) P.
Proof.
  intros HN Hy Hk.
  destruct (linspace_spec N HN) as (y' & Hy' & Ly & _ & _ & Hnth).
  assert (y' = y) by congruence. subst y'.
  rewrite nth_analytical_array by lia.
  apply analytical_solution_ext, Hnth, Hk.
Qed.

Lemma analytical_solves_system (P : Q) (N : Z) (y : vector) (A : matrix)
      (b : vector) :
  (2 <= N)%Z -> assemble P N = Ok (y, A, b) ->
  length (analytical_solution_array y P) = length b /\
  vec_eq (mat_vec A (analytical_solution_array y P)) b.
Proof.
  intros HN Has.
  destruct (assemble_spec P N HN) as (y' & A' & b' & Has' & Hy & LA & Lb & Hrows).
  assert (E : (y', A', b') = (y, A, b)) by congruence.
  inversion E; subst y' A' b'; clear E Has'.
  destruct (linspace_spec N HN) as (y' & Hy' & Ly & _).
  assert (y' = y) by congruence. subst y'. clear Hy'.
  set (n := Z.to_nat N) in *.
  set (u := analytical_solution_array y P).
  assert (Lu : length u = n) by (unfold u, analytical_solution_array;
                                 rewrite length_map; exact Ly).
  split; [congruence |].
  pose proof (inject_Z_nonzero (N - 1) ltac:(lia)) as Hd.
  destruct (system_times n A u ltac:(lia) LA Lu
              (fun r Hr => proj1 (Hrows r Hr))) as (T0 & Tn & Ti).
  apply vec_eq_nth. rewrite length_mat_vec. split; [congruence |].
  intros r Hr. rewrite LA in Hr.
  destruct (Hrows r Hr) as [_ Br]. rewrite Br. unfold system_rhs. fold n.
  destruct (Nat.eqb_spec r 0) as [->|H0].
  - rewrite T0. unfold u. rewrite (analytical_on_grid P N y) by (auto; lia).
    unfold analytical_solution. change (inject_Z (Z.of_nat 0)) with 0.
    field. exact Hd.
  - destruct (Nat.eqb_spec r (n - 1)) as [->|H1].
    + rewrite Tn. unfold u. rewrite (analytical_on_grid P N y) by (auto; lia).
      unfold analytical_solution.
      replace (Z.of_nat (n - 1)) with (N - 1)%Z by lia.
      field. exact Hd.
    + rewrite Ti by lia. unfold u.
      rewrite !(analytical_on_grid P N y) by (auto; lia).
      unfold analytical_solution. rewrite Qred_correct.
      replace (Z.of_nat (r - 1)) with (Z.of_nat r + - (1))%Z by lia.
      replace (Z.of_nat (r + 1)) with (Z.of_nat r + 1)%Z by lia.
      rewrite !inject_Z_plus.
      change (inject_Z (- (1))) with (- (1)). change (inject_Z 1) with 1.
      field. exact Hd.
Qed.

(** ** Both integrators on the same input *)

Lemma IVP_both_run (p h : Q) (M : nat) :
  ~ h == 0 -> (py_round (1 / h) + 1)%Z = Z.of_nat M -> (1 <= M)%nat ->
  exists g u1 u2 v1 v2,
    initial_value p = Ok (Some g) /\
    IVP_Explicit p h = Ok (u1, u2) /\
    IVP_Implicit p h = Ok (v1, v2) /\
    trajectory (explicit_step p h) M (inject_Z g) u1 u2 /\
    trajectory (implicit_step p h) M (inject_Z g) v1 v2.
Proof.
  intros Hh HM H1.
  destruct (IVP_Explicit_runs p h M Hh HM H1) as (g & u1 & u2 & Hg & HE & TE).
  destruct (IVP_Implicit_runs p h M Hh HM H1) as (g' & v1 & v2 & Hg' & HI & TI).
  assert (g' = g) by congruence. subst g'.
  exists g, u1, u2, v1, v2. auto.
Qed.

Lemma Qlt_nonzero (h : Q) : 0 < h -> ~ h == 0.
Proof. intros H E. rewrite E in H. discriminate H. Qed.

Lemma IVP_both_run_pos (p h : Q) :
  0 < h ->
  exists g u1 u2 v1 v2,
    initial_value p = Ok (Some g) /\
    IVP_Explicit p h = Ok (u1, u2) /\
    IVP_Implicit p h = Ok (v1, v2) /\
    trajectory (explicit_step p h) (samples h) (inject_Z g) u1 u2 /\
    trajectory (implicit_step p h) (samples h) (inject_Z g) v1 v2.
Proof.
  intros H. destruct (samples_pos h H) as [E L].
  apply IVP_both_run; [apply Qlt_nonzero; exact H | exact E | exact L].
Qed.

(** ** The functions on concrete inputs *)

Example initial_value_2 : initial_value 2 = Ok (Some 2%Z).
Proof. vm_compute. reflexivity. Qed.

Example IVP_Explicit_quarter :
  IVP_Explicit 2 (1 # 4)
  = Ok ([0; 1 # 2; 7 # 8; 9 # 8; 5 # 4], [2; 3 # 2; 1; 1 # 2; 0]).
Proof. vm_compute. reflexivity. Qed.

Example IVP_Implicit_quarter :
  IVP_Implicit 2 (1 # 4)
  = Ok ([0; 3 # 8; 5 # 8; 3 # 4; 3 # 4], [2; 3 # 2; 1; 1 # 2; 0]).
Proof. vm_compute. reflexivity. Qed.

Example py_round_ties :
  py_round (1 # 2) = 0%Z /\ py_round (3 # 2) = 2%Z /\
  py_round (- (1 # 2)) = 0%Z /\ py_round (- (1 # 3)) = 0%Z.
Proof. repeat split. Qed.

Example assemble_2_2 : assemble 2 2 = Ok ([0; 1], [[1; 0]; [0; 1]], [0; 1]).
Proof. vm_compute. reflexivity. Qed.

(** * The claims *)

(** C7. For every P the analytical solution [y + (P/2) y (1 - y)] meets the
    boundary conditions exactly: its value at 0 is 0 and its value at 1
    is 1; on the array [[0; 1]] it returns [[0; 1]]. *)
Theorem analytical_solution_boundary (P : Q) :
  analytical_solution 0 P == 0 /\
  analytical_solution 1 P == 1 /\
  analytical_solution_array [0; 1] P = [0; 1].
Proof.
  assert (E0 : analytical_solution 0 P == 0)
    by (unfold analytical_solution; field).
  assert (E1 : analytical_solution 1 P == 1)
    by (unfold analytical_solution; field).
  split; [exact E0 |]. split; [exact E1 |].
  unfold analytical_solution_array. cbn [map].
  rewrite (Qred_complete _ _ E0), (Qred_complete _ _ E1). reflexivity.
Qed.

(** C8. [jacobian_eigenvalues] takes no input; the eigenvalues of its
    fixed matrix [[0,1],[0,0]] are 0 and 0, and nothing else is a list of
    its eigenvalues. *)
Theorem jacobian_eigenvalues_zero :
  jacobian_eigenvalues [0; 0] /\
  forall ev, jacobian_eigenvalues ev -> vec_eq ev [0; 0].
Proof.
  unfold jacobian_eigenvalues, linalg_eigvals. cbv zeta. split.
  - split; [reflexivity |]. intros x. cbn. ring.
  - intros ev [L H].
    destruct ev as [|l1 [|l2 [|? ?]]]; try discriminate L.
    pose proof (H 0) as H0. pose proof (H 1) as H1.
    cbn in H0, H1.
    assert (P0 : l1 * l2 == 0) by lra.
    assert (S0 : l1 + l2 == 0) by lra.
    apply Qmult_integral in P0.
    repeat constructor; destruct P0 as [Z|Z]; lra.
Qed.

(** C10. For every P and every h > 0 both integrators return, and their
    second components (the u' sequences) are the same list, equal at every
    step: both start from the same slope and both apply the recurrence
    [u'[i+1] = u'[i] + (-P) h], which does not read u. *)
Theorem u2_sequences_identical (P h : Q) :
  0 < h ->
  exists u1 u2 v1 v2,
    IVP_Explicit P h = Ok (u1, u2) /\
    IVP_Implicit P h = Ok (v1, v2) /\
    u2 = v2 /\
    (forall i, nth i u2 0 = nth i v2 0) /\
    (forall i, (S i < length u2)%nat ->
       nth (S i) u2 0 == nth i u2 0 + - P * h /\
       nth (S i) v2 0 == nth i v2 0 + - P * h).
Proof.
  intros Hh.
  destruct (IVP_both_run_pos P h Hh)
    as (g & u1 & u2 & v1 & v2 & _ & HE & HI & TE & TI).
  pose proof (same_u2 _ _ _ _ _ _ _ _ TE TI) as E.
  exists u1, u2, v1, v2.
  split; [exact HE |]. split; [exact HI |]. split; [exact E |].
  split; [intros i; rewrite E; reflexivity |].
  destruct TE as (_ & K2 & _ & _ & K5). destruct TI as (_ & _ & _ & _ & J5).
  intros i Hi. rewrite K2 in Hi.
  destruct (K5 i Hi) as [_ S2]. destruct (J5 i Hi) as [R2 _].
  rewrite S2, R2, !Qred_correct. split; reflexivity.
Qed.

Lemma u2_sequences_identical_witness :
  0 < 1 # 4 /\
  exists u1 u2 v1 v2,
    IVP_Explicit 2 (1 # 4) = Ok (u1, u2) /\
    IVP_Implicit 2 (1 # 4) = Ok (v1, v2) /\
    u2 = v2 /\
    (forall i, nth i u2 0 = nth i v2 0) /\
    (forall i, (S i < length u2)%nat ->
       nth (S i) u2 0 == nth i u2 0 + - 2 * (1 # 4) /\
       nth (S i) v2 0 == nth i v2 0 + - 2 * (1 # 4)).
Proof.
  split; [reflexivity | apply (u2_sequences_identical 2 (1 # 4)); reflexivity].
Defined.


(** ** The boundary-value solve *)

Lemma nth_stencil_row (n i : nat) :
  (1 <= i)%nat -> (i + 1 < n)%nat ->
  nth (i - 1) (stencil_row n i) 0 = 1 /\
  nth i (stencil_row n i) 0 = -2 /\
  nth (i + 1) (stencil_row n i) 0 = 1 /\
  forall j, j <> (i - 1)%nat -> j <> i -> j <> (i + 1)%nat ->
            nth j (stencil_row n i) 0 = 0.
Proof.
  intros H1 H2. unfold stencil_row. split; [| split; [| split]].
  - rewrite !nth_upd_neq by lia. apply nth_upd_eq. rewrite repeat_length. lia.
  - rewrite nth_upd_neq by lia. apply nth_upd_eq.
    rewrite length_upd, repeat_length. lia.
  - apply nth_upd_eq. rewrite !length_upd, repeat_length. lia.
  - intros j A B C. rewrite !nth_upd_neq by lia. apply nth_repeat_0.
Qed.

Lemma nth_unit_row (n k : nat) :
  (k < n)%nat ->
  nth k (upd (repeat 0 n) k 1) 0 = 1 /\
  forall j, j <> k -> nth j (upd (repeat 0 n) k 1) 0 = 0.
Proof.
  intros H. split.
  - apply nth_upd_eq. rewrite repeat_length. exact H.
  - intros j Hj. rewrite nth_upd_neq by exact Hj. apply nth_repeat_0.
Qed.

(** For [N >= 2] the solve returns, and never raises. *)
Lemma solve_returns (P : Q) (N : Z) :
  (2 <= N)%Z ->
  exists y A b,
    assemble P N = Ok (y, A, b) /\
    nonsingular A /\
    solve_couette_poiseuille P N (Ok (y, analytical_solution_array y P)) /\
    forall e, ~ solve_couette_poiseuille P N (Raise e).
Proof.
  intros HN.
  destruct (assemble_spec P N HN) as (y & A & b & Has & Hy & LA & Lb & Hrows).
  assert (NS : nonsingular A).
  { apply (system_nonsingular (Z.to_nat N)); [lia | exact LA |].
    intros r Hr. apply Hrows, Hr. }
  exists y, A, b. split; [exact Has |]. split; [exact NS |]. split.
  - destruct (analytical_solves_system P N y A b HN Has) as [Lu Hu].
    apply (scp_returns P N y A b); [exact Has |].
    apply solve_ok; assumption.
  - intros e H. inversion H as [e' Hr | | y' A' b' e' Has' Hs]; subst.
    + congruence.
    + assert (E : (y', A', b') = (y, A, b)) by congruence.
      inversion E; subst. inversion Hs. contradiction.
Qed.

(** What any returned pair satisfies. *)
Lemma solve_inversion (P : Q) (N : Z) (y u : vector) :
  solve_couette_poiseuille P N (Ok (y, u)) ->
  exists A b,
    assemble P N = Ok (y, A, b) /\ nonsingular A /\
    length u = length b /\ vec_eq (mat_vec A u) b.
Proof.
  intros H. inversion H as [| y' A b u' Has Hs |]; subst.
  inversion Hs as [u'' NS Lu Hu |]; subst.
  exists A, b. auto.
Qed.

(** C1.  For every P and every N >= 2 the assembly returns an N x N
    matrix and a right-hand side of length N in which every interior row
    i in [1, N-2] has A[i,i-1] = 1, A[i,i] = -2, A[i,i+1] = 1, zeros
    elsewhere, and b[i] = -P dy^2 with dy = 1/(N-1); row 0 has
    A[0,0] = 1 and b[0] = 0, row N-1 has A[N-1,N-1] = 1 and b[N-1] = 1,
    zeros elsewhere.  For P = 2 and N = 5 the right-hand side is
    [0, -1/8, -1/8, -1/8, 1]. *)
Theorem assemble_stencil_and_boundary (P : Q) (N : Z) :
  (2 <= N)%Z ->
  (exists y A b,
     assemble P N = Ok (y, A, b) /\
     length A = Z.to_nat N /\ length b = Z.to_nat N /\
     (forall i, (1 <= i <= Z.to_nat N - 2)%nat ->
        nth (i - 1) (nth i A []) 0 = 1 /\
        nth i (nth i A []) 0 = -2 /\
        nth (i + 1) (nth i A []) 0 = 1 /\
        (forall j, j <> (i - 1)%nat -> j <> i -> j <> (i + 1)%nat ->
                   nth j (nth i A []) 0 = 0) /\
        nth i b 0 == - P * (1 / inject_Z (N - 1)) ^ 2) /\
     (nth 0 (nth 0 A []) 0 = 1 /\
      (forall j, j <> 0%nat -> nth j (nth 0 A []) 0 = 0) /\
      nth 0 b 0 = 0) /\
     (nth (Z.to_nat N - 1) (nth (Z.to_nat N - 1) A []) 0 = 1 /\
      (forall j, j <> (Z.to_nat N - 1)%nat ->
                 nth j (nth (Z.to_nat N - 1) A []) 0 = 0) /\
      nth (Z.to_nat N - 1) b 0 = 1)) /\
  (exists y A,
     assemble 2 5 = Ok (y, A, [0; -1 # 8; -1 # 8; -1 # 8; 1]) /\
     A = [[1; 0; 0; 0; 0]; [1; -2; 1; 0; 0]; [0; 1; -2; 1; 0];
          [0; 0; 1; -2; 1]; [0; 0; 0; 0; 1]]).
Proof.
  intros HN. split.
  - destruct (assemble_spec P N HN) as (y & A & b & Has & _ & LA & Lb & Hrows).
    set (n := Z.to_nat N) in *.
    exists y, A, b. split; [exact Has |]. split; [exact LA |].
    split; [exact Lb |]. split; [| split].
    + intros i Hi. destruct (Hrows i ltac:(lia)) as [Ri Bi].
      unfold system_row in Ri. unfold system_rhs in Bi. fold n in Bi.
      destruct (Nat.eqb_spec i 0); [lia |].
      destruct (Nat.eqb_spec i (n - 1)); [lia |].
      rewrite Ri, Bi.
      destruct (nth_stencil_row n i ltac:(lia) ltac:(lia)) as (E1 & E2 & E3 & E4).
      split; [exact E1 |]. split; [exact E2 |]. split; [exact E3 |].
      split; [exact E4 |]. apply Qred_correct.
    + destruct (Hrows 0%nat ltac:(lia)) as [R0 B0].
      unfold system_row in R0. unfold system_rhs in B0. cbn [Nat.eqb] in R0, B0.
      rewrite R0, B0. destruct (nth_unit_row n 0 ltac:(lia)) as [E1 E2].
      split; [exact E1 |]. split; [exact E2 | reflexivity].
    + destruct (Hrows (n - 1)%nat ltac:(lia)) as [Rn Bn].
      unfold system_row in Rn. unfold system_rhs in Bn. fold n in Bn.
      destruct (Nat.eqb_spec (n - 1) 0); [lia |].
      rewrite Nat.eqb_refl in Rn, Bn. rewrite Rn, Bn.
      destruct (nth_unit_row n (n - 1) ltac:(lia)) as [E1 E2].
      split; [exact E1 |]. split; [exact E2 | reflexivity].
  - eexists _, _. split; vm_compute; reflexivity.
Qed.

Lemma assemble_stencil_and_boundary_witness :
  (2 <= 5)%Z /\
  exists y A b,
    assemble 2 5 = Ok (y, A, b) /\
    nth 1 (nth 2 A []) 0 = 1 /\ nth 2 (nth 2 A []) 0 = -2 /\
    nth 3 (nth 2 A []) 0 = 1 /\ nth 2 b 0 == - 2 * (1 / inject_Z (5 - 1)) ^ 2.
Proof.
  split; [lia |].
  destruct (proj1 (assemble_stencil_and_boundary 2 5 ltac:(lia)))
    as (y & A & b & Has & _ & _ & Hint & _).
  exists y, A, b. split; [exact Has |].
  destruct (Hint 2%nat ltac:(simpl; lia)) as (E1 & E2 & E3 & _ & E5).
  auto.
Defined.

(** C4.  For every P and every N >= 2 the solve returns, and every
    returned solution u has N entries with u[0] = 0 and u[N-1] = 1: the
    first and the last row of the system are identity rows with right-hand
    sides 0 and 1. *)
Theorem solution_boundary_values (P : Q) (N : Z) :
  (2 <= N)%Z ->
  (exists y u, solve_couette_poiseuille P N (Ok (y, u))) /\
  (exists y A b,
     assemble P N = Ok (y, A, b) /\
     nth 0 A [] = upd (repeat 0 (Z.to_nat N)) 0 1 /\
     nth (Z.to_nat N - 1) A []
     = upd (repeat 0 (Z.to_nat N)) (Z.to_nat N - 1) 1) /\
  forall y u,
    solve_couette_poiseuille P N (Ok (y, u)) ->
    length u = Z.to_nat N /\
    nth 0 u 0 == 0 /\
    nth (Z.to_nat N - 1) u 0 == 1.
Proof.
  intros HN.
  destruct (assemble_spec P N HN) as (y & A & b & Has & _ & LA & Lb & Hrows).
  set (n := Z.to_nat N) in *.
  destruct (Hrows 0%nat ltac:(lia)) as [R0 B0].
  destruct (Hrows (n - 1)%nat ltac:(lia)) as [Rn Bn].
  unfold system_row in R0, Rn. unfold system_rhs in B0, Bn. fold n in Bn.
  cbn [Nat.eqb] in R0, B0.
  destruct (Nat.eqb_spec (n - 1) 0); [lia |].
  rewrite Nat.eqb_refl in Rn, Bn.
  split; [| split].
  - destruct (solve_returns P N HN) as (y' & _ & _ & _ & _ & Hs & _).
    exists y', (analytical_solution_array y' P). exact Hs.
  - exists y, A, b. auto.
  - intros y' u Hs.
    destruct (solve_inversion P N y' u Hs) as (A' & b' & Has' & _ & Lu & Hu).
    assert (E : (y', A', b') = (y, A, b)) by congruence.
    inversion E; subst y' A' b'; clear E Has'.
    assert (Lu' : length u = n) by congruence.
    split; [exact Lu' |].
    destruct (system_times n A u ltac:(lia) LA Lu'
                (fun r Hr => proj1 (Hrows r Hr))) as (T0 & Tn & _).
    apply vec_eq_nth in Hu. destruct Hu as [_ Hu].
    rewrite length_mat_vec, LA in Hu.
    split.
    + rewrite <- T0, Hu by lia. rewrite B0. reflexivity.
    + rewrite <- Tn, Hu by lia. rewrite Bn. reflexivity.
Qed.

Lemma solution_boundary_values_witness :
  (2 <= 5)%Z /\
  (exists y u, solve_couette_poiseuille 2 5 (Ok (y, u))) /\
  forall y u,
    solve_couette_poiseuille 2 5 (Ok (y, u)) ->
    length u = 5%nat /\ nth 0 u 0 == 0 /\ nth 4 u 0 == 1.
Proof.
  split; [lia |]. split.
  - exact (proj1 (solution_boundary_values 2 5 ltac:(lia))).
  - exact (proj2 (proj2 (solution_boundary_values 2 5 ltac:(lia)))).
Defined.


(** C6.  For every P and every N >= 2 the assembled system is
    non-singular and the solve succeeds: it returns a solution and raises
    nothing.  Hence the solve fails, with whatever error, only when
    N < 2. *)
Theorem solve_succeeds (P : Q) (N : Z) :
  ((2 <= N)%Z ->
   exists y A b,
     assemble P N = Ok (y, A, b) /\
     nonsingular A /\
     (exists u, solve_couette_poiseuille P N (Ok (y, u))) /\
     (forall e, ~ solve_couette_poiseuille P N (Raise e))) /\
  (forall e, solve_couette_poiseuille P N (Raise e) -> (N < 2)%Z).
Proof.
  split.
  - intros HN.
    destruct (solve_returns P N HN) as (y & A & b & Has & NS & Hs & Hn).
    exists y, A, b. split; [exact Has |]. split; [exact NS |].
    split; [| exact Hn].
    exists (analytical_solution_array y P). exact Hs.
  - intros e He. destruct (Z.lt_ge_cases N 2) as [H|H]; [exact H |].
    destruct (solve_returns P N H) as (_ & _ & _ & _ & _ & _ & Hn).
    exfalso. exact (Hn e He).
Qed.

Lemma solve_succeeds_witness :
  (2 <= 5)%Z /\
  exists y A b,
    assemble 2 5 = Ok (y, A, b) /\
    nonsingular A /\
    (exists u, solve_couette_poiseuille 2 5 (Ok (y, u))) /\
    (forall e, ~ solve_couette_poiseuille 2 5 (Raise e)).
Proof.
  split; [lia |]. apply (proj1 (solve_succeeds 2 5)). lia.
Defined.

(** C9.  For every P and every N >= 2 the solve returns, and the grid it
    returns has N points, starts at exactly 0, ends at exactly 1, and
    rises by dy = 1/(N-1) from each point to the next, so it is ordered
    and stays within [0, 1]. *)
Theorem grid_uniform (P : Q) (N : Z) :
  (2 <= N)%Z ->
  (exists y u, solve_couette_poiseuille P N (Ok (y, u))) /\
  forall y u,
    solve_couette_poiseuille P N (Ok (y, u)) ->
    length y = Z.to_nat N /\
    nth 0 y 0 = 0 /\
    nth (Z.to_nat N - 1) y 0 = 1 /\
    (forall i, (S i < Z.to_nat N)%nat ->
       nth (S i) y 0 - nth i y 0 == 1 / inject_Z (N - 1) /\
       nth i y 0 < nth (S i) y 0) /\
    (forall i, (i < Z.to_nat N)%nat -> 0 <= nth i y 0 <= 1).
Proof.
  intros HN. split.
  - destruct (solve_returns P N HN) as (y' & _ & _ & _ & _ & Hs & _).
    exists y', (analytical_solution_array y' P). exact Hs.
  - intros y u Hs.
    destruct (solve_inversion P N y u Hs) as (A & b & Has & _).
    destruct (assemble_spec P N HN) as (y' & A' & b' & Has' & Hy & _).
    assert (E : (y', A', b') = (y, A, b)) by congruence.
    inversion E; subst y' A' b'; clear E Has'.
    destruct (linspace_spec N HN) as (y' & Hy' & Ly & Y0 & Y1 & Hnth).
    assert (y' = y) by congruence. subst y'.
    pose proof (inject_Z_nonzero (N - 1) ltac:(lia)) as Hd.
    assert (Dpos : 0 < 1 / inject_Z (N - 1)).
    { apply recip_pos. change 0 with (inject_Z 0). rewrite <- Zlt_Qlt. lia. }
    assert (Step : forall i, (S i < Z.to_nat N)%nat ->
              nth (S i) y 0 - nth i y 0 == 1 / inject_Z (N - 1)).
    { intros i Hi. rewrite (Hnth (S i)), (Hnth i) by lia.
      rewrite Nat2Z.inj_succ. unfold Z.succ. rewrite inject_Z_plus.
      change (inject_Z 1) with 1. field. exact Hd. }
    split; [exact Ly |]. split; [exact Y0 |]. split; [exact Y1 |]. split.
    + intros i Hi. split; [apply Step, Hi |].
      specialize (Step i Hi). lra.
    + intros i Hi. rewrite (Hnth i Hi).
      assert (A0 : 0 <= inject_Z (Z.of_nat i)).
      { change 0 with (inject_Z 0). rewrite <- Zle_Qle. lia. }
      assert (A1 : inject_Z (Z.of_nat i) <= inject_Z (N - 1)).
      { rewrite <- Zle_Qle. lia. }
      assert (A2 : 0 < inject_Z (N - 1)).
      { change 0 with (inject_Z 0). rewrite <- Zlt_Qlt. lia. }
      split.
      * apply Qle_shift_div_l; [exact A2 | lra].
      * apply Qle_shift_div_r; [exact A2 | lra].
Qed.

Lemma grid_uniform_witness :
  (2 <= 5)%Z /\
  (exists y u, solve_couette_poiseuille 2 5 (Ok (y, u))) /\
  forall y u,
    solve_couette_poiseuille 2 5 (Ok (y, u)) ->
    length y = 5%nat /\ nth 0 y 0 = 0 /\ nth 4 y 0 = 1.
Proof.
  split; [lia |].
  destruct (grid_uniform 2 5 ltac:(lia)) as [Hex Hall].
  split; [exact Hex |].
  intros y u Hs. destruct (Hall y u Hs) as (L & Y0 & Y1 & _).
  auto.
Defined.

(** * Further properties of the code *)



(** * The integrators on binary64 *)

Ltac b64_after_stores K5 j i old :=
  destruct (Z.eq_dec (Z.of_nat j) i) as [E|E];
  [ subst i; replace (Z.to_nat (Z.of_nat j + 1)) with (S j) by lia;
    rewrite Nat2Z.id; rewrite !nth_upd_eq by lia;
    rewrite !nth_upd_neq by lia; reflexivity
  | destruct (K5 j ltac:(lia)) as [S1 S2];
    rewrite !nth_upd_neq by lia; old S1 S2 ].

Lemma b64_getitem_nonneg (a : B64.vector) (i : Z) :
  (0 <= i < Z.of_nat (length a))%Z ->
  B64.getitem a i = Ok (nth (Z.to_nat i) a 0%float).
Proof.
  intros H. unfold B64.getitem. rewrite norm_index_nonneg by exact H.
  reflexivity.
Qed.

Lemma b64_setitem_nonneg (a : B64.vector) (i : Z) (v : float) :
  (0 <= i < Z.of_nat (length a))%Z ->
  B64.setitem a i v = Ok (upd a (Z.to_nat i) v).
Proof.
  intros H. unfold B64.setitem. rewrite norm_index_nonneg by exact H.
  reflexivity.
Qed.

Lemma b64_np_zeros_nonneg (n : Z) :
  (0 <= n)%Z -> B64.np_zeros n = Ok (repeat 0%float (Z.to_nat n)).
Proof.
  intros H. unfold B64.np_zeros.
  destruct (Z.ltb_spec n 0); [lia | reflexivity].
Qed.

Lemma b64_np_zeros_neg (n : Z) :
  (n < 0)%Z -> B64.np_zeros n = Raise ValueError.
Proof.
  intros H. unfold B64.np_zeros. apply Z.ltb_lt in H. rewrite H. reflexivity.
Qed.

Section B64Loops.

Variables (p h : float) (M : nat) (a1 a2 : B64.vector).
Hypothesis HM : (1 <= M)%nat.
Hypothesis L1 : length a1 = M.
Hypothesis L2 : length a2 = M.

Lemma b64_inv_start (step : B64.vector -> B64.vector -> nat -> Prop) :
  B64.euler_inv M a1 a2 step 0 (a1, a2).
Proof.
  unfold B64.euler_inv; cbn [fst snd]. split5; auto. intros j Hj; lia.
Qed.

Lemma b64_inv_end (step : B64.vector -> B64.vector -> nat -> Prop)
      (g : float) (u1 u2 : B64.vector) :
  nth 0 a1 0%float = 0%float -> nth 0 a2 0%float = g ->
  B64.euler_inv M a1 a2 step (Z.of_nat M - 1) (u1, u2) ->
  B64.trajectory step M g u1 u2.
Proof.
  intros A1 A2 (K1 & K2 & K3 & K4 & K5). cbn [fst snd] in *.
  split5; try congruence. intros j Hj. apply K5. lia.
Qed.

Lemma b64_explicit_loop (g : float) :
  nth 0 a1 0%float = 0%float -> nth 0 a2 0%float = g ->
  exists u1 u2,
    for_range 0 (Z.of_nat M - 1) (fun i u =>
      a <- B64.getitem (fst u) i ;;
      c <- B64.getitem (snd u) i ;;
      u1 <- B64.setitem (fst u) (i + 1) (a + c * h)%float ;;
      c <- B64.getitem (snd u) i ;;
      u2 <- B64.setitem (snd u) (i + 1) (c + (- p) * h)%float ;;
      Ok (u1, u2)) (a1, a2) = Ok (u1, u2) /\
    B64.trajectory (B64.explicit_step p h) M g u1 u2.
Proof.
  intros A1 A2.
  match goal with |- exists u1 u2, for_range _ _ ?body _ = _ /\ _ =>
    destruct (for_range_inv (B64.euler_inv M a1 a2 (B64.explicit_step p h))
                body 0 (Z.of_nat M - 1) (a1, a2))
      as [[u1 u2] [Hrun HI]]
  end.
  - lia.
  - apply b64_inv_start.
  - intros i [t1 t2] Hi (K1 & K2 & K3 & K4 & K5). cbn [fst snd] in *.
    rewrite !b64_getitem_nonneg by lia. cbn [bind].
    rewrite b64_setitem_nonneg by lia. cbn [bind].
    rewrite b64_setitem_nonneg by lia. cbn [bind].
    eexists; split; [reflexivity |].
    unfold B64.euler_inv; cbn [fst snd]. rewrite !length_upd.
    split5; auto.
    + rewrite nth_upd_neq by lia. exact K3.
    + rewrite nth_upd_neq by lia. exact K4.
    + intros j Hj. split.
      * b64_after_stores K5 j i ltac:(fun S1 S2 => exact S1).
      * b64_after_stores K5 j i ltac:(fun S1 S2 => exact S2).
  - exists u1, u2. split; [exact Hrun | apply b64_inv_end; assumption].
Qed.

Lemma b64_implicit_loop (g : float) :
  nth 0 a1 0%float = 0%float -> nth 0 a2 0%float = g ->
  exists u1 u2,
    for_range 0 (Z.of_nat M - 1) (fun i u =>
      c <- B64.getitem (snd u) i ;;
      u2 <- B64.setitem (snd u) (i + 1) (c + (- p) * h)%float ;;
      a <- B64.getitem (fst u) i ;;
      c <- B64.getitem u2 (i + 1) ;;
      u1 <- B64.setitem (fst u) (i + 1) (a + c * h)%float ;;
      Ok (u1, u2)) (a1, a2) = Ok (u1, u2) /\
    B64.trajectory (B64.implicit_step p h) M g u1 u2.
Proof.
  intros A1 A2.
  match goal with |- exists u1 u2, for_range _ _ ?body _ = _ /\ _ =>
    destruct (for_range_inv (B64.euler_inv M a1 a2 (B64.implicit_step p h))
                body 0 (Z.of_nat M - 1) (a1, a2))
      as [[u1 u2] [Hrun HI]]
  end.
  - lia.
  - apply b64_inv_start.
  - intros i [t1 t2] Hi (K1 & K2 & K3 & K4 & K5). cbn [fst snd] in *.
    rewrite b64_getitem_nonneg by lia. cbn [bind].
    rewrite b64_setitem_nonneg by lia. cbn [bind].
    rewrite b64_getitem_nonneg by lia. cbn [bind].
    rewrite b64_getitem_nonneg by (rewrite length_upd; lia). cbn [bind].
    rewrite b64_setitem_nonneg by lia. cbn [bind].
    eexists; split; [reflexivity |].
    unfold B64.euler_inv; cbn [fst snd]. rewrite !length_upd.
    split5; auto.
    + rewrite nth_upd_neq by lia. exact K3.
    + rewrite nth_upd_neq by lia. exact K4.
    + intros j Hj. split.
      * b64_after_stores K5 j i ltac:(fun S1 S2 => exact S1).
      * b64_after_stores K5 j i ltac:(fun S1 S2 => exact S2).
  - exists u1, u2. split; [exact Hrun | apply b64_inv_end; assumption].
Qed.

End B64Loops.

(** The arrays both integrators and the reference run start from. *)
Lemma b64_start_arrays (M : nat) (g : float) :
  (1 <= M)%nat ->
  B64.setitem (repeat 0%float M) 0 0%float
  = Ok (upd (repeat 0%float M) 0 0%float) /\
  B64.setitem (repeat 0%float M) 0 g = Ok (upd (repeat 0%float M) 0 g) /\
  length (upd (repeat 0%float M) 0 0%float) = M /\
  length (upd (repeat 0%float M) 0 g) = M /\
  nth 0 (upd (repeat 0%float M) 0 0%float) 0%float = 0%float /\
  nth 0 (upd (repeat 0%float M) 0 g) 0%float = g.
Proof.
  intros HM.
  assert (R : forall v, B64.setitem (repeat 0%float M) 0 v
                        = Ok (upd (repeat 0%float M) 0 v)).
  { intros v. rewrite b64_setitem_nonneg by (rewrite repeat_length; lia).
    reflexivity. }
  split; [apply R |]. split; [apply R |].
  rewrite !length_upd, repeat_length.
  split; [reflexivity |]. split; [reflexivity |].
  split; apply nth_upd_eq; rewrite repeat_length; lia.
Qed.

#[local] Set Warnings "-inexact-float".

Lemma b64_reference_count :
  B64.py_div 1 0.01 = Ok 100%float /\ B64.py_round 100 = Ok 100%Z.
Proof. split; vm_compute; reflexivity. Qed.

Lemma b64_of_int_small (k : Z) :
  (0 <= k < 100)%Z -> exists g, B64.of_int k = Ok g.
Proof.
  intros Hk.
  assert (H : forallb (fun z => match B64.of_int z with
                                | Ok _ => true
                                | Raise _ => false
                                end) (range 0 100) = true)
    by (vm_compute; reflexivity).
  rewrite forallb_forall in H. specialize (H k).
  destruct (B64.of_int k) as [g|e]; [exists g; reflexivity |].
  assert (In k (range 0 100)).
  { unfold range. apply in_map_iff. exists (Z.to_nat k).
    split; [lia | apply in_seq; lia]. }
  specialize (H ltac:(assumption)). discriminate H.
Qed.

(** The reference run for a guess that fits a float: an explicit Euler
    trajectory of 100 samples with h = 0.01, of which the last u is
    returned. *)
Lemma b64_shooting_method_spec (k : Z) (p g : float) :
  B64.of_int k = Ok g ->
  exists u1 u2,
    B64.shooting_method k p = Ok (nth 99 u1 0%float) /\
    B64.trajectory (B64.explicit_step p 0.01) 100 g u1 u2.
Proof.
  intros Hg. destruct b64_reference_count as [Ed Er].
  destruct (b64_start_arrays 100 g ltac:(lia)) as (S1 & S2 & La & Lb & A1 & A2).
  destruct (b64_explicit_loop p 0.01 100 _ _ ltac:(lia) La Lb g A1 A2)
    as (u1 & u2 & Hrun & T).
  exists u1, u2. split; [| exact T].
  unfold B64.shooting_method. cbv zeta. rewrite Ed. cbn [bind].
  rewrite Er. cbn [bind].
  rewrite b64_np_zeros_nonneg by lia. cbn [bind].
  change (Z.to_nat 100) with 100%nat.
  rewrite S1. cbn [bind]. rewrite Hg. cbn [bind]. rewrite S2. cbn [bind].
  change (100 - 1)%Z with (Z.of_nat 100 - 1)%Z. rewrite Hrun. cbn [bind fst].
  destruct T as (K1 & _).
  unfold B64.getitem. rewrite norm_index_last by lia. cbn [bind].
  rewrite K1. reflexivity.
Qed.

(** The search on floats returns for every [p], NaN and the infinities
    included: [None], or a candidate of the range. *)
Lemma b64_initial_value_total (p : float) :
  exists r,
    B64.initial_value p = Ok r /\
    (r = None \/ exists g, r = Some g /\ (0 <= g <= 99)%Z).
Proof.
  unfold B64.initial_value. cbv zeta.
  pose (I := fun (i : Z) (best : option Z * float) =>
    fst best = None \/ exists g, fst best = Some g /\ (0 <= g < i)%Z).
  match goal with |- exists r, bind (for_range _ _ ?body ?s0) _ = _ /\ _ =>
    destruct (for_range_inv I body 0 100 s0) as [best [Hfor HI]]
  end.
  - lia.
  - left. reflexivity.
  - intros i best Hi HIi.
    destruct (b64_of_int_small i Hi) as [g Hg].
    destruct (b64_shooting_method_spec i p g Hg) as (u1 & u2 & Hs & _).
    rewrite Hs. cbn [bind]. cbv zeta.
    destruct (PrimFloat.ltb _ _).
    + eexists; split; [reflexivity |]. right. exists i.
      split; [reflexivity | lia].
    + eexists; split; [reflexivity |].
      destruct HIi as [N|[g' [E R]]]; [left; exact N |].
      right. exists g'. split; [exact E | lia].
  - exists (fst best). rewrite Hfor. cbn [bind]. split; [reflexivity |].
    destruct HI as [N|[g [E R]]]; [left; exact N |].
    right. exists g. split; [exact E | lia].
Qed.

Lemma b64_initial_slope (p : float) :
  exists r s, B64.initial_value p = Ok r /\ B64.to_float r = Ok s.
Proof.
  destruct (b64_initial_value_total p) as (r & Hr & [->|(g & -> & Hg)]).
  - exists None, nan. split; [exact Hr | reflexivity].
  - destruct (b64_of_int_small g ltac:(lia)) as [s Hs].
    exists (Some g), s. split; [exact Hr | exact Hs].
Qed.

(** Both integrators return when [round(1/h)] is a non-negative
    integer. *)
Lemma b64_IVP_both_run (p h : float) (r : Z) :
  (h =? 0)%float = false -> B64.py_round (1 / h) = Ok r -> (0 <= r)%Z ->
  exists g s u1 u2 v1 v2,
    B64.initial_value p = Ok g /\
    B64.to_float g = Ok s /\
    B64.IVP_Explicit p h = Ok (u1, u2) /\
    B64.IVP_Implicit p h = Ok (v1, v2) /\
    B64.trajectory (B64.explicit_step p h) (Z.to_nat (r + 1)) s u1 u2 /\
    B64.trajectory (B64.implicit_step p h) (Z.to_nat (r + 1)) s v1 v2.
Proof.
  intros Hh Hr Hr0. set (M := Z.to_nat (r + 1)).
  destruct (b64_initial_slope p) as (g & s & Hg & Hs).
  destruct (b64_start_arrays M s ltac:(lia)) as (S1 & S2 & La & Lb & A1 & A2).
  destruct (b64_explicit_loop p h M _ _ ltac:(lia) La Lb s A1 A2)
    as (u1 & u2 & HE & TE).
  destruct (b64_implicit_loop p h M _ _ ltac:(lia) La Lb s A1 A2)
    as (v1 & v2 & HI & TI).
  exists g, s, u1, u2, v1, v2.
  assert (Pre : B64.py_div 1 h = Ok (1 / h)%float)
    by (unfold B64.py_div; rewrite Hh; reflexivity).
  replace (Z.of_nat M - 1)%Z with (r + 1 - 1)%Z in HE, HI by lia.
  split; [exact Hg |]. split; [exact Hs |].
  split; [| split; [| split; assumption]].
  - unfold B64.IVP_Explicit. rewrite Pre. cbn [bind]. rewrite Hr. cbn [bind].
    cbv zeta. rewrite b64_np_zeros_nonneg by lia. cbn [bind]. fold M.
    rewrite S1. cbn [bind]. rewrite Hg. cbn [bind]. rewrite Hs. cbn [bind].
    rewrite S2. cbn [bind]. exact HE.
  - unfold B64.IVP_Implicit. rewrite Pre. cbn [bind]. rewrite Hr. cbn [bind].
    cbv zeta. rewrite b64_np_zeros_nonneg by lia. cbn [bind]. fold M.
    rewrite S1. cbn [bind]. rewrite Hg. cbn [bind]. rewrite Hs. cbn [bind].
    rewrite S2. cbn [bind]. exact HI.
Qed.

(** How both integrators fail before their loop. *)
Lemma b64_IVP_raise (p h : float) :
  ((h =? 0)%float = true ->
   B64.IVP_Explicit p h = Raise ZeroDivisionError /\
   B64.IVP_Implicit p h = Raise ZeroDivisionError) /\
  ((h =? 0)%float = false ->
   (forall e, B64.py_round (1 / h) = Raise e ->
      B64.IVP_Explicit p h = Raise e /\ B64.IVP_Implicit p h = Raise e) /\
   (forall r, B64.py_round (1 / h) = Ok r -> (r < -1)%Z ->
      B64.IVP_Explicit p h = Raise ValueError /\
      B64.IVP_Implicit p h = Raise ValueError) /\
   (B64.py_round (1 / h) = Ok (-1)%Z ->
      B64.IVP_Explicit p h = Raise IndexError /\
      B64.IVP_Implicit p h = Raise IndexError)).
Proof.
  unfold B64.IVP_Explicit, B64.IVP_Implicit, B64.py_div. split.
  - intros Hh. rewrite Hh. split; reflexivity.
  - intros Hh. rewrite Hh. cbn [bind]. split; [| split].
    + intros e He. rewrite He. split; reflexivity.
    + intros r Hr Hlt. rewrite Hr. cbn [bind]. cbv zeta.
      rewrite b64_np_zeros_neg by lia. split; reflexivity.
    + intros Hr. rewrite Hr. split; reflexivity.
Qed.

Lemma b64_trajectory_one (step : B64.vector -> B64.vector -> nat -> Prop)
      (g : float) (u1 u2 : B64.vector) :
  B64.trajectory step 1 g u1 u2 -> u1 = [0%float] /\ u2 = [g].
Proof.
  intros (K1 & K2 & K3 & K4 & _).
  destruct u1 as [|a [|? ?]]; try discriminate K1.
  destruct u2 as [|b [|? ?]]; try discriminate K2.
  simpl in K3, K4. subst. split; reflexivity.
Qed.

Lemma b64_same_u2 (p h g : float) (M : nat) (u1 u2 v1 v2 : B64.vector) :
  B64.trajectory (B64.explicit_step p h) M g u1 u2 ->
  B64.trajectory (B64.implicit_step p h) M g v1 v2 ->
  u2 = v2.
Proof.
  intros (K1 & K2 & K3 & K4 & K5) (J1 & J2 & J3 & J4 & J5).
  apply (nth_ext _ _ 0%float 0%float); [congruence |].
  intros n Hn. rewrite K2 in Hn.
  induction n as [|n IH].
  - congruence.
  - destruct (K5 n Hn) as [_ E]. destruct (J5 n Hn) as [F _].
    rewrite E, F, IH by lia. reflexivity.
Qed.

(** When no step changes u', the update order makes no difference. *)
Lemma b64_same_u1 (p h g : float) (M : nat) (u1 u2 v1 v2 : B64.vector) :
  B64.trajectory (B64.explicit_step p h) M g u1 u2 ->
  B64.trajectory (B64.implicit_step p h) M g v1 v2 ->
  (forall i, (S i < M)%nat -> nth (S i) u2 0%float = nth i u2 0%float) ->
  u1 = v1.
Proof.
  intros TE TI Hc. pose proof (b64_same_u2 _ _ _ _ _ _ _ _ TE TI) as E2.
  subst v2.
  destruct TE as (K1 & K2 & K3 & K4 & K5). destruct TI as (J1 & J2 & J3 & J4 & J5).
  apply (nth_ext _ _ 0%float 0%float); [congruence |].
  intros n Hn. rewrite K1 in Hn.
  induction n as [|n IH].
  - congruence.
  - destruct (K5 n Hn) as [E _]. destruct (J5 n Hn) as [_ F].
    rewrite E, F, IH, (Hc n Hn) by lia. reflexivity.
Qed.

(** ** The sign of [round(1/h)] *)

Lemma sf_shr_1_nonneg (mrs : shr_record) :
  (0 <= shr_m mrs)%Z -> (0 <= shr_m (shr_1 mrs))%Z.
Proof.
  destruct mrs as [m r s]. destruct m as [|[q|q|]|[q|q|]]; simpl; lia.
Qed.

Lemma sf_iter_shr_1_nonneg (n : positive) (mrs : shr_record) :
  (0 <= shr_m mrs)%Z -> (0 <= shr_m (iter_pos shr_1 n mrs))%Z.
Proof.
  revert mrs; induction n as [n IH|n IH|]; intros mrs H; simpl.
  - apply IH, IH, sf_shr_1_nonneg, H.
  - apply IH, IH, H.
  - apply sf_shr_1_nonneg, H.
Qed.

Lemma sf_shr_fexp_nonneg (m e : Z) (l : location) :
  (0 <= m)%Z -> (0 <= shr_m (fst (shr_fexp prec emax m e l)))%Z.
Proof.
  intros H. unfold shr_fexp, shr.
  assert (R : (0 <= shr_m (shr_record_of_loc m l))%Z)
    by (destruct l as [|[ | | ]]; exact H).
  destruct (fexp prec emax (Zdigits2 m + e) - e)%Z; cbn [fst];
    try exact R.
  apply sf_iter_shr_1_nonneg, R.
Qed.

Lemma sf_round_nearest_even_nonneg (m : Z) (l : location) :
  (0 <= m)%Z -> (0 <= round_nearest_even m l)%Z.
Proof.
  intros H. destruct l as [|[ | | ]]; simpl; try destruct (Z.even m); lia.
Qed.

Lemma sf_binary_round_aux_signed (s : bool) (m e : Z) (l : location) :
  (0 <= m)%Z -> sf_signed s (binary_round_aux prec emax s m e l).
Proof.
  intros H. unfold binary_round_aux.
  pose proof (sf_shr_fexp_nonneg m e l H) as H1.
  destruct (shr_fexp prec emax m e l) as [mrs' e']. cbn [fst] in H1.
  pose proof (sf_shr_fexp_nonneg _ e' loc_Exact
                (sf_round_nearest_even_nonneg _ (loc_of_shr_record mrs') H1))
    as H2.
  destruct (shr_fexp prec emax _ e' loc_Exact) as [mrs'' e'']. cbn [fst] in H2.
  destruct (shr_m mrs'') as [|q|q]; [reflexivity | | lia].
  destruct (Z.leb e'' (emax - prec)); reflexivity.
Qed.

Lemma sf_div_core_nonneg (m1 m2 : positive) (e1 e2 : Z) :
  (0 <= fst (fst (SFdiv_core_binary prec emax (Zpos m1) e1 (Zpos m2) e2)))%Z.
Proof.
  unfold SFdiv_core_binary. cbv zeta.
  match goal with |- context [Z.div_eucl ?a ?b] =>
    assert (Ha : (0 <= a)%Z);
    [| pose proof (Z.div_pos a b Ha ltac:(lia)) as Hq;
       unfold Z.div in Hq; destruct (Z.div_eucl a b) as [q r];
       cbn [fst]; exact Hq ]
  end.
  destruct (e1 - e2 - _)%Z; try lia.
  apply Z.shiftl_nonneg. lia.
Qed.

Lemma sf_div_signed (sx sy : bool) (mx my : positive) (ex ey : Z) :
  sf_signed (xorb sx sy)
    (SFdiv prec emax (S754_finite sx mx ex) (S754_finite sy my ey)).
Proof.
  unfold SFdiv.
  pose proof (sf_div_core_nonneg mx my ex ey) as H.
  destruct (SFdiv_core_binary prec emax (Zpos mx) ex (Zpos my) ey)
    as [[mz ez] lz]. cbn [fst] in H.
  apply sf_binary_round_aux_signed, H.
Qed.

Lemma b64_Prim2SF_constants :
  Prim2SF 0 = S754_zero false /\
  Prim2SF 1 = S754_finite false 4503599627370496 (-52).
Proof. split; vm_compute; reflexivity. Qed.

(** The reciprocal of a positive float is not NaN and not negative, that
    of a negative float is not NaN and not positive. *)
Lemma b64_reciprocal_signed (h : float) :
  ((0 <? h)%float = true -> sf_signed false (Prim2SF (1 / h))) /\
  ((h <? 0)%float = true -> sf_signed true (Prim2SF (1 / h))).
Proof.
  destruct b64_Prim2SF_constants as [E0 E1].
  rewrite !ltb_spec, div_spec, E0, E1. unfold SF64div.
  split; intros H.
  - destruct (Prim2SF h) as [s|s| |s m e]; try destruct s;
      try discriminate H; try reflexivity.
    apply (sf_div_signed false false).
  - destruct (Prim2SF h) as [s|s| |s m e]; try destruct s;
      try discriminate H; try reflexivity.
    apply (sf_div_signed false true).
Qed.

Lemma b64_round_half_even_nonneg (m : positive) (e : Z) :
  (0 <= B64.round_half_even (Zpos m) e)%Z.
Proof.
  unfold B64.round_half_even.
  destruct (Z.leb_spec 0 e) as [He|He].
  - apply Z.mul_nonneg_nonneg; [lia | apply Z.pow_nonneg; lia].
  - cbv zeta.
    assert (D : (0 < 2 ^ (- e))%Z) by (apply Z.pow_pos_nonneg; lia).
    pose proof (Z.div_pos (Zpos m) (2 ^ (- e)) ltac:(lia) D) as Q.
    destruct (2 * (Zpos m mod 2 ^ (- e)) ?= 2 ^ (- e))%Z;
      try destruct (Z.even _); lia.
Qed.

(** [round] of a float that is not NaN: it raises exactly for the two
    infinities, and its result has the sign of the argument. *)
Lemma b64_py_round_signed (x : float) (s : bool) :
  sf_signed s (Prim2SF x) ->
  (x = (if s then neg_infinity else infinity) /\
   B64.py_round x = Raise OverflowError) \/
  (exists r, B64.py_round x = Ok r /\ if s then (r <= 0)%Z else (0 <= r)%Z).
Proof.
  intros H. unfold B64.py_round.
  destruct (Prim2SF x) as [s'|s'| |s' m e] eqn:E; cbn [sf_signed] in H;
    try contradiction; subst s'.
  - right. exists 0%Z. split; [reflexivity | destruct s; lia].
  - left. split; [| reflexivity].
    rewrite <- (SF2Prim_Prim2SF x), E. destruct s; reflexivity.
  - right. eexists; split; [reflexivity |].
    pose proof (b64_round_half_even_nonneg m e). cbv zeta.
    destruct s; lia.
Qed.

Lemma b64_signed_nonzero (h : float) :
  (0 <? h)%float = true \/ (h <? 0)%float = true -> (h =? 0)%float = false.
Proof.
  destruct b64_Prim2SF_constants as [E0 _].
  rewrite !ltb_spec, FloatAxioms.eqb_spec, E0.
  intros [H|H]; destruct (Prim2SF h) as [s|s| |s m e]; try destruct s;
    try discriminate H; reflexivity.
Qed.

Lemma b64_is_nan (h : float) : is_nan h = true -> h = nan.
Proof.
  intros H. apply Prim2SF_inj. unfold Prim2SF at 1. rewrite H.
  vm_compute. reflexivity.
Qed.

(** The outcome of both integrators for a step size that is not NaN and
    not a zero, by the sign [s] of [1/h]. *)
Lemma b64_IVP_outcome (p h : float) (s : bool) :
  (h =? 0)%float = false ->
  sf_signed s (Prim2SF (1 / h)) ->
  ((1 / h)%float = (if s then neg_infinity else infinity) /\
   B64.IVP_Explicit p h = Raise OverflowError /\
   B64.IVP_Implicit p h = Raise OverflowError) \/
  (exists r,
     B64.py_round (1 / h) = Ok r /\
     (if s then (r <= 0)%Z else (0 <= r)%Z) /\
     ((r < -1)%Z ->
      B64.IVP_Explicit p h = Raise ValueError /\
      B64.IVP_Implicit p h = Raise ValueError) /\
     (r = (-1)%Z ->
      B64.IVP_Explicit p h = Raise IndexError /\
      B64.IVP_Implicit p h = Raise IndexError) /\
     ((0 <= r)%Z ->
      exists u1 u2 v1 v2,
        B64.IVP_Explicit p h = Ok (u1, u2) /\
        B64.IVP_Implicit p h = Ok (v1, v2) /\
        Z.of_nat (length u1) = (r + 1)%Z /\ length u2 = length u1 /\
        length v1 = length u1 /\ length v2 = length u1 /\
        (r = 0%Z -> u1 = [0%float] /\ v1 = [0%float] /\ u2 = v2))).
Proof.
  intros Hh Hs.
  destruct (b64_IVP_raise p h) as [_ R]. destruct (R Hh) as (Re & Rv & Ri).
  destruct (b64_py_round_signed _ _ Hs) as [[Ex Er]|[r [Er Hr]]].
  - left. split; [exact Ex |]. apply Re, Er.
  - right. exists r. split; [exact Er |]. split; [exact Hr |].
    split; [apply Rv, Er |]. split; [intros ->; apply Ri, Er |].
    intros Hr0.
    destruct (b64_IVP_both_run p h r Hh Er Hr0)
      as (g & s0 & u1 & u2 & v1 & v2 & _ & _ & HE & HI & TE & TI).
    exists u1, u2, v1, v2. split; [exact HE |]. split; [exact HI |].
    pose proof (b64_same_u2 _ _ _ _ _ _ _ _ TE TI) as E2.
    assert (L : length u1 = Z.to_nat (r + 1) /\ length u2 = Z.to_nat (r + 1) /\
                length v1 = Z.to_nat (r + 1) /\ length v2 = Z.to_nat (r + 1)).
    { destruct TE as (K1 & K2 & _). destruct TI as (J1 & J2 & _). auto. }
    destruct L as (L1 & L2 & L3 & L4).
    split; [lia |]. split; [congruence |]. split; [congruence |].
    split; [congruence |].
    intros ->. change (Z.to_nat (0 + 1)) with 1%nat in TE, TI.
    apply b64_trajectory_one in TE. apply b64_trajectory_one in TI.
    destruct TE as [-> _]. destruct TI as [-> _]. auto.
Qed.

(** ** The binary64 functions on concrete inputs *)

Example b64_shooting_method_1_2 :
  B64.shooting_method 1 2 = Ok 0.019799999999999283%float.
Proof. vm_compute. reflexivity. Qed.

Example b64_IVP_step_two :
  B64.IVP_Explicit 1 2 = Ok ([0%float], [2%float]) /\
  B64.IVP_Implicit 1 2 = Ok ([0%float], [2%float]).
Proof. split; vm_compute; reflexivity. Qed.

Example b64_IVP_step_minus_three :
  B64.IVP_Explicit 2 (-3) = Ok ([0%float], [2%float]) /\
  B64.IVP_Implicit 2 (-3) = Ok ([0%float], [2%float]).
Proof. split; vm_compute; reflexivity. Qed.

(** With P = 1e-300 and h = 0.01 every update of u' is absorbed by
    rounding, and the two integrators return the same arrays. *)
Example b64_IVP_tiny_gradient :
  (1e-300 =? 0)%float = false /\
  B64.IVP_Explicit 1e-300 0.01 = B64.IVP_Implicit 1e-300 0.01 /\
  exists u1 u2, B64.IVP_Explicit 1e-300 0.01 = Ok (u1, u2) /\
                length u1 = 101%nat.
Proof.
  split; [reflexivity |]. split; [vm_compute; reflexivity |].
  eexists _, _. split; vm_compute; reflexivity.
Qed.

Example b64_IVP_quarter :
  B64.IVP_Explicit 2 0.25
  = Ok ([0; 0.5; 0.875; 1.125; 1.25], [2; 1.5; 1; 0.5; 0])%float /\
  B64.IVP_Implicit 2 0.25
  = Ok ([0; 0.375; 0.625; 0.75; 0.75], [2; 1.5; 1; 0.5; 0])%float.
Proof. split; vm_compute; reflexivity. Qed.

(** The double quotient [1 / 0.2222222222222222] is exactly 4.5, a tie
    that goes to 4: five samples. *)
Example b64_IVP_tie :
  B64.py_round (1 / 0.2222222222222222) = Ok 4%Z /\
  exists u1 u2, B64.IVP_Explicit 2 0.2222222222222222 = Ok (u1, u2) /\
                length u1 = 5%nat.
Proof.
  split; [vm_compute; reflexivity |].
  eexists _, _. split; vm_compute; reflexivity.
Qed.

Example b64_IVP_subnormal_step :
  (0 <? 5e-324)%float = true /\
  B64.IVP_Explicit 2 5e-324 = Raise OverflowError /\
  B64.IVP_Implicit 2 5e-324 = Raise OverflowError.
Proof. repeat split; vm_compute; reflexivity. Qed.

(** ** The claims about the integrators, on binary64 *)

(** C3, the claim as stated fails: with P = 1 and h = 2 the sample count
    is [round(0.5) + 1 = 1], no step is taken, and both integrators return
    the same one-sample u trajectory [[0]], although P and h are not 0. *)
Lemma b64_u_trajectories_equal_at_step_two :
  ~ (forall P h : float,
       (0 <? h)%float = true -> (P =? 0)%float = false ->
       forall u1 u2 v1 v2,
         B64.IVP_Explicit P h = Ok (u1, u2) ->
         B64.IVP_Implicit P h = Ok (v1, v2) ->
         u1 <> v1).
Proof.
  intros H. destruct b64_IVP_step_two as [HE HI].
  apply (H 1%float 2%float ltac:(reflexivity) ltac:(reflexivity)
           _ _ _ _ HE HI).
  reflexivity.
Qed.

(** C3, amended.  For every P and every h > 0 whose reciprocal is finite,
    both integrators return trajectories of [M = round(1/h) + 1] samples,
    [1/h] being the double quotient; their u' sequences are the same; the
    explicit u at step i+1 uses u'[i] and the implicit one the already
    updated u'[i+1].  The two u trajectories need not diverge: they are
    equal when there is one sample and when no step changes u'; they
    differ at sample 1 exactly when [0 + u'[0] h] and [0 + u'[1] h] are
    different doubles. *)
Theorem b64_explicit_implicit_compared (P h : float) :
  (0 <? h)%float = true -> is_infinity (1 / h) = false ->
  exists r u1 u2 v1 v2,
    B64.py_round (1 / h) = Ok r /\ (0 <= r)%Z /\
    B64.IVP_Explicit P h = Ok (u1, u2) /\
    B64.IVP_Implicit P h = Ok (v1, v2) /\
    (Z.of_nat (length u1) = (r + 1)%Z /\ length u2 = length u1 /\
     length v1 = length u1 /\ length v2 = length u1) /\
    u2 = v2 /\
    (forall i, (S i < length u1)%nat ->
       nth (S i) u1 0%float = (nth i u1 0 + nth i u2 0 * h)%float /\
       nth (S i) v1 0%float = (nth i v1 0 + nth (S i) v2 0 * h)%float) /\
    (r = 0%Z -> u1 = v1) /\
    ((forall i, (S i < length u2)%nat ->
        nth (S i) u2 0%float = nth i u2 0%float) -> u1 = v1) /\
    ((1 <= r)%Z ->
     (nth 1 u1 0%float = nth 1 v1 0%float <->
      (0 + nth 0 u2 0 * h)%float = (0 + nth 1 u2 0 * h)%float)).
Proof.
  intros Hpos Hfin.
  pose proof (b64_signed_nonzero h (or_introl Hpos)) as Hh.
  destruct (b64_reciprocal_signed h) as [Sg _]. specialize (Sg Hpos).
  destruct (b64_py_round_signed _ _ Sg) as [[Ex _]|[r [Er Hr]]].
  { rewrite Ex in Hfin. discriminate Hfin. }
  destruct (b64_IVP_both_run P h r Hh Er Hr)
    as (g & s & u1 & u2 & v1 & v2 & _ & _ & HE & HI & TE & TI).
  pose proof (b64_same_u2 _ _ _ _ _ _ _ _ TE TI) as E2.
  pose proof (b64_same_u1 _ _ _ _ _ _ _ _ TE TI) as E1.
  exists r, u1, u2, v1, v2.
  split; [exact Er |]. split; [exact Hr |].
  split; [exact HE |]. split; [exact HI |].
  destruct TE as (K1 & K2 & K3 & K4 & K5).
  destruct TI as (J1 & J2 & J3 & J4 & J5).
  split; [repeat split; try congruence; lia |].
  split; [exact E2 |]. split.
  { intros i Hi. rewrite K1 in Hi.
    destruct (K5 i Hi) as [S1 _]. destruct (J5 i Hi) as [_ R1]. auto. }
  split.
  { intros ->. change (Z.to_nat (0 + 1)) with 1%nat in *.
    destruct u1 as [|a [|? ?]]; try discriminate K1.
    destruct v1 as [|b [|? ?]]; try discriminate J1.
    simpl in K3, J3. congruence. }
  split.
  { intros Hc. apply E1. intros i Hi. apply Hc. lia. }
  intros H1.
  destruct (K5 0%nat ltac:(lia)) as [S1 _].
  destruct (J5 0%nat ltac:(lia)) as [_ R1].
  rewrite S1, R1, K3, J3, <- E2. reflexivity.
Qed.

Lemma b64_explicit_implicit_compared_witness :
  (0 <? 0.25)%float = true /\ is_infinity (1 / 0.25) = false /\
  exists r u1 u2 v1 v2,
    B64.py_round (1 / 0.25) = Ok r /\
    B64.IVP_Explicit 2 0.25 = Ok (u1, u2) /\
    B64.IVP_Implicit 2 0.25 = Ok (v1, v2) /\
    Z.of_nat (length u1) = (r + 1)%Z /\
    u2 = v2.
Proof.
  split; [reflexivity |]. split; [reflexivity |].
  destruct (b64_explicit_implicit_compared 2 0.25
              ltac:(reflexivity) ltac:(reflexivity))
    as (r & u1 & u2 & v1 & v2 & Er & _ & HE & HI & (L & _) & E2 & _).
  exists r, u1, u2, v1, v2. auto.
Defined.

(** C5, the claim as stated fails: with h = -3 the sample count is
    [round(-1/3) + 1 = 1] and both integrators return the one-sample
    trajectory [([0], [2])]; no exception is raised for this h <= 0. *)
Lemma b64_negative_step_returns :
  ~ (forall P h : float,
       (h <=? 0)%float = true ->
       exists e, B64.IVP_Explicit P h = Raise e /\
                 B64.IVP_Implicit P h = Raise e).
Proof.
  intros H.
  destruct (H 2%float (-3)%float ltac:(reflexivity)) as [e [HE _]].
  destruct b64_IVP_step_minus_three as [K _]. rewrite K in HE.
  discriminate HE.
Qed.

(** C5, amended.  The integrators do not check h.  For h = 0.0 or -0.0
    both raise [ZeroDivisionError] at [1/h]; for a NaN h both raise
    [ValueError] at [round].  For h > 0 either [1/h] is infinite and both
    raise [OverflowError] at [round], or both return a trajectory of
    [round(1/h) + 1 >= 1] samples.  For h < 0 either [1/h] is infinite
    and both raise [OverflowError], or [r = round(1/h) <= 0] and both
    raise [ValueError] from [np.zeros] when r < -1, [IndexError] from
    [u1[0] = 0] when r = -1, and return the one-sample trajectory of the
    initial state when r = 0. *)
Theorem b64_step_size_outcomes (P h : float) :
  ((h =? 0)%float = true ->
   B64.IVP_Explicit P h = Raise ZeroDivisionError /\
   B64.IVP_Implicit P h = Raise ZeroDivisionError) /\
  (is_nan h = true ->
   B64.IVP_Explicit P h = Raise ValueError /\
   B64.IVP_Implicit P h = Raise ValueError) /\
  ((0 <? h)%float = true ->
   ((1 / h)%float = infinity /\
    B64.IVP_Explicit P h = Raise OverflowError /\
    B64.IVP_Implicit P h = Raise OverflowError) \/
   (exists r u1 u2 v1 v2,
      B64.py_round (1 / h) = Ok r /\ (0 <= r)%Z /\
      B64.IVP_Explicit P h = Ok (u1, u2) /\
      B64.IVP_Implicit P h = Ok (v1, v2) /\
      Z.of_nat (length u1) = (r + 1)%Z /\ length u2 = length u1 /\
      length v1 = length u1 /\ length v2 = length u1)) /\
  ((h <? 0)%float = true ->
   ((1 / h)%float = neg_infinity /\
    B64.IVP_Explicit P h = Raise OverflowError /\
    B64.IVP_Implicit P h = Raise OverflowError) \/
   (exists r,
      B64.py_round (1 / h) = Ok r /\ (r <= 0)%Z /\
      ((r < -1)%Z ->
       B64.IVP_Explicit P h = Raise ValueError /\
       B64.IVP_Implicit P h = Raise ValueError) /\
      (r = (-1)%Z ->
       B64.IVP_Explicit P h = Raise IndexError /\
       B64.IVP_Implicit P h = Raise IndexError) /\
      (r = 0%Z ->
       exists u2,
         B64.IVP_Explicit P h = Ok ([0%float], u2) /\
         B64.IVP_Implicit P h = Ok ([0%float], u2) /\
         length u2 = 1%nat))).
Proof.
  split; [apply b64_IVP_raise |]. split; [| split].
  - intros Hn. apply b64_is_nan in Hn. subst h.
    destruct (b64_IVP_raise P nan) as [_ R].
    destruct (R ltac:(reflexivity)) as (Re & _).
    apply Re. vm_compute. reflexivity.
  - intros Hpos.
    pose proof (b64_signed_nonzero h (or_introl Hpos)) as Hh.
    destruct (b64_reciprocal_signed h) as [Sg _]. specialize (Sg Hpos).
    destruct (b64_IVP_outcome P h false Hh Sg)
      as [O|(r & Er & Hr & _ & _ & Hok)]; [left; exact O | right].
    destruct (Hok Hr) as (u1 & u2 & v1 & v2 & HE & HI & L1 & L2 & L3 & L4 & _).
    exists r, u1, u2, v1, v2. auto 10.
  - intros Hneg.
    pose proof (b64_signed_nonzero h (or_intror Hneg)) as Hh.
    destruct (b64_reciprocal_signed h) as [_ Sg]. specialize (Sg Hneg).
    destruct (b64_IVP_outcome P h true Hh Sg)
      as [O|(r & Er & Hr & Hv & Hi & Hok)]; [left; exact O | right].
    exists r. split; [exact Er |]. split; [exact Hr |].
    split; [exact Hv |]. split; [exact Hi |].
    intros ->.
    destruct (Hok ltac:(lia))
      as (u1 & u2 & v1 & v2 & HE & HI & L1 & L2 & L3 & L4 & One).
    destruct (One eq_refl) as (-> & -> & <-).
    exists u2. simpl in L2. auto.
Qed.

Lemma b64_step_size_outcomes_witness :
  (B64.IVP_Explicit 2 0 = Raise ZeroDivisionError /\
   B64.IVP_Implicit 2 0 = Raise ZeroDivisionError) /\
  (B64.IVP_Explicit 2 nan = Raise ValueError /\
   B64.IVP_Implicit 2 nan = Raise ValueError) /\
  (((1 / 0.25)%float = infinity /\
    B64.IVP_Explicit 2 0.25 = Raise OverflowError /\
    B64.IVP_Implicit 2 0.25 = Raise OverflowError) \/
   (exists r u1 u2 v1 v2,
      B64.py_round (1 / 0.25) = Ok r /\ (0 <= r)%Z /\
      B64.IVP_Explicit 2 0.25 = Ok (u1, u2) /\
      B64.IVP_Implicit 2 0.25 = Ok (v1, v2) /\
      Z.of_nat (length u1) = (r + 1)%Z /\ length u2 = length u1 /\
      length v1 = length u1 /\ length v2 = length u1)) /\
  (((1 / -3)%float = neg_infinity /\
    B64.IVP_Explicit 2 (-3) = Raise OverflowError /\
    B64.IVP_Implicit 2 (-3) = Raise OverflowError) \/
   (exists r,
      B64.py_round (1 / -3) = Ok r /\ (r <= 0)%Z /\
      ((r < -1)%Z ->
       B64.IVP_Explicit 2 (-3) = Raise ValueError /\
       B64.IVP_Implicit 2 (-3) = Raise ValueError) /\
      (r = (-1)%Z ->
       B64.IVP_Explicit 2 (-3) = Raise IndexError /\
       B64.IVP_Implicit 2 (-3) = Raise IndexError) /\
      (r = 0%Z ->
       exists u2,
         B64.IVP_Explicit 2 (-3) = Ok ([0%float], u2) /\
         B64.IVP_Implicit 2 (-3) = Ok ([0%float], u2) /\
         length u2 = 1%nat))).
Proof.
  split; [| split; [| split]].
  - apply (proj1 (b64_step_size_outcomes 2 0)). reflexivity.
  - apply (proj1 (proj2 (b64_step_size_outcomes 2 nan))). reflexivity.
  - apply (proj1 (proj2 (proj2 (b64_step_size_outcomes 2 0.25)))).
    reflexivity.
  - apply (proj2 (proj2 (proj2 (b64_step_size_outcomes 2 (-3))))).
    reflexivity.
Defined.

(** Two explicit trajectories with the same P, h and initial state agree
    as far as both reach. *)
Lemma b64_explicit_prefix (p h g : float) (M M' : nat)
      (u1 u2 t1 t2 : B64.vector) :
  B64.trajectory (B64.explicit_step p h) M g u1 u2 ->
  B64.trajectory (B64.explicit_step p h) M' g t1 t2 ->
  forall j, (j < M)%nat -> (j < M')%nat ->
    nth j u1 0%float = nth j t1 0%float /\
    nth j u2 0%float = nth j t2 0%float.
Proof.
  intros (K1 & K2 & K3 & K4 & K5) (J1 & J2 & J3 & J4 & J5).
  induction j as [|j IH]; intros Hj Hj'.
  - split; congruence.
  - destruct (IH ltac:(lia) ltac:(lia)) as [E1 E2].
    destruct (K5 j Hj) as [A1 A2]. destruct (J5 j Hj') as [B1 B2].
    rewrite A1, A2, B1, B2, E1, E2. split; reflexivity.
Qed.

(** X11.  At the reference step h = 0.01, for every P, [IVP_Explicit]
    returns 101 samples, one more than the reference run of the line
    search: when the search returned the slope g, the value
    [shooting_method(g, P)] it judged is sample 99 of the trajectory, bit
    for bit, and the last sample is one more explicit step,
    [u[100] = u[99] + u'[99] h]. *)
Theorem b64_search_targets_sample_99 (P : float) :
  exists u1 u2,
    B64.IVP_Explicit P 0.01 = Ok (u1, u2) /\
    length u1 = 101%nat /\
    (forall g, B64.initial_value P = Ok (Some g) ->
               B64.shooting_method g P = Ok (nth 99 u1 0%float)) /\
    nth 100 u1 0%float = (nth 99 u1 0 + nth 99 u2 0 * 0.01)%float.
Proof.
  destruct (b64_IVP_both_run P 0.01 100 ltac:(reflexivity)
              ltac:(vm_compute; reflexivity) ltac:(lia))
    as (r & s & u1 & u2 & v1 & v2 & Hr & Hs & HE & _ & TE & _).
  change (Z.to_nat (100 + 1)) with 101%nat in TE.
  exists u1, u2. split; [exact HE |]. split; [apply TE |]. split.
  - intros g Hg. assert (r = Some g) by congruence. subst r.
    cbn [B64.to_float] in Hs.
    destruct (b64_shooting_method_spec g P s Hs) as (t1 & t2 & Ht & TT).
    rewrite Ht. f_equal.
    destruct (b64_explicit_prefix _ _ _ _ _ _ _ _ _ TE TT 99%nat
                ltac:(lia) ltac:(lia)) as [E _].
    symmetry. exact E.
  - destruct TE as (_ & _ & _ & _ & K5).
    destruct (K5 99%nat ltac:(lia)) as [S1 _]. exact S1.
Qed.
